(** * brian2.input.spikegeneratorgroup: schedule validation and playback index

    A shallow embedding of [SpikeGeneratorGroup] (construction,
    [_check_args], [set_spikes] and [before_run]) together with the
    properties of the stored spike schedule, of the run-start checks and
    of the [_lastindex] cursor.

    Numbers.  Spike times, [dt], the period and the current time are
    float64 values in the source.  They are idealised here as exact
    rationals in canonical form ([Qc]), so that two times are equal exactly
    when they compare equal; rounding of the floating-point operations is
    not modelled.  The period may also be [inf], which [quantity] adds.
    Integers of numpy arrays are [Z]; the float to [int32] conversion of
    the time bins is written out in [Numpy.as_int32].

    Where the rounding of a float operation decides what the code does
    (the number of sampled multiples of the period, the value of a time
    bin), the two numeric blocks of [before_run] are also given in binary64
    arithmetic ([check_period_float], [timebins_float]), on the primitive
    floats of the kernel. *)

From Stdlib Require Import ZArith QArith Qcanon Qround List Bool Lia.
From Stdlib Require Import Permutation Sorted.
From Stdlib Require Import Floats.
Import ListNotations.

Local Open Scope Z_scope.

(** ** Rational numbers standing for floats *)

Module Num.

Definition Qcltb (x y : Qc) : bool :=
  match (x ?= y)%Qc with Lt => true | _ => false end.

Definition Qcleb (x y : Qc) : bool :=
  match (x ?= y)%Qc with Gt => false | _ => true end.

Definition Qceqb (x y : Qc) : bool :=
  match (x ?= y)%Qc with Eq => true | _ => false end.

(** Python's [int(x)] on a float and numpy's float to integer conversion
    both drop the fractional part (rounding towards zero). *)
Definition Qtruncate (q : Q) : Z := Z.quot (Qnum q) (Zpos (Qden q)).

Definition of_Z (z : Z) : Qc := Q2Qc (inject_Z z).

(** The literal [1e-3]. *)
Definition milli : Qc := Q2Qc (1 # 1000).

(** The literal [1000] (seconds). *)
Definition thousand : Qc := of_Z 1000.

(** A float that may be [inf]: the period, [1e100*second] by default. *)
Inductive quantity : Type :=
| Fin (q : Qc)
| Inf.

Definition qlt (a b : quantity) : bool :=
  match a, b with
  | Fin x, Fin y => Qcltb x y
  | Fin _, Inf => true
  | Inf, _ => false
  end.

Definition qle (a b : quantity) : bool :=
  match a, b with
  | Fin x, Fin y => Qcleb x y
  | _, Inf => true
  | Inf, Fin _ => false
  end.

End Num.
Import Num.

(** ** The numpy operations the group uses *)

Module Numpy.

(** [np.max] and [np.min] of a non-empty array of times (only called
    behind a [len(times)] guard; the value on the empty array is unused). *)
Definition np_max (l : list Qc) : Qc :=
  match l with
  | [] => of_Z 0
  | x :: l' => fold_left (fun m y => if Qcltb m y then y else m) l' x
  end.

Definition np_min (l : list Qc) : Qc :=
  match l with
  | [] => of_Z 0
  | x :: l' => fold_left (fun m y => if Qcltb y m then y else m) l' x
  end.

Definition np_maxZ (l : list Z) : Z :=
  match l with
  | [] => 0
  | x :: l' => fold_left Z.max l' x
  end.

Definition np_minZ (l : list Z) : Z :=
  match l with
  | [] => 0
  | x :: l' => fold_left Z.min l' x
  end.

(** [np.arange(n)]. *)
Definition arange (n : Z) : list Z := map Z.of_nat (seq 0 (Z.to_nat n)).

(** [np.diff(a)]: the differences of neighbours, one element shorter. *)
Fixpoint np_diff (a : list Z) : list Z :=
  match a with
  | x :: (y :: _) as a' => (y - x) :: np_diff a'
  | _ => []
  end.

(** [np.logical_and(a, b)] on arrays of equal length. *)
Fixpoint logical_and (a b : list bool) : list bool :=
  match a, b with
  | x :: a', y :: b' => (x && y) :: logical_and a' b'
  | _, _ => []
  end.

(** [a.any()] and [np.all(a)]. *)
Definition np_any (a : list bool) : bool := existsb (fun b => b) a.
Definition np_all (a : list bool) : bool := forallb (fun b => b) a.

(** [np.nonzero(a)[0]]: the positions of the true entries, ascending. *)
Fixpoint nonzero_from (i : nat) (a : list bool) : list nat :=
  match a with
  | [] => []
  | b :: a' => if b then i :: nonzero_from (S i) a' else nonzero_from (S i) a'
  end.

Definition nonzero (a : list bool) : list nat := nonzero_from 0 a.

(** [a % b] on int64 arrays: the sign follows the divisor, and numpy gives
    0 for a zero divisor. *)
Definition np_mod (a b : Z) : Z := if b =? 0 then 0 else a mod b.

(** [a[I]]: indexing by an array of positions. *)
Definition take {A : Type} (d : A) (a : list A) (I : list nat) : list A :=
  map (fun i => nth i a d) I.

(** The conversion of a float to [int32] that
    [np.asarray(x, dtype=np.int32)] performs: the fractional part is
    dropped.  A value that does not fit has no defined result in C; the
    conversion instruction of x86-64 returns the "integer indefinite"
    value [-2^31], which is what is written here.  Only the boundary
    example of the time bins depends on that choice. *)
Definition int32_min : Z := - 2 ^ 31.
Definition int32_max : Z := 2 ^ 31 - 1.

Definition as_int32 (x : Q) : Z :=
  let z := Qtruncate x in
  if (int32_min <=? z) && (z <=? int32_max) then z else int32_min.

(** [np.lexsort((indices, times))]: the positions [0..n-1] in the order
    that sorts by the last key ([times]) first and by [indices] among equal
    times; the sort is stable.  Written as an insertion sort on positions. *)
Definition lex_leb (times : list Qc) (indices : list Z) (p q : nat) : bool :=
  let tp := nth p times (of_Z 0) in
  let tq := nth q times (of_Z 0) in
  Qcltb tp tq || (Qceqb tp tq && (nth p indices 0 <=? nth q indices 0)).

Fixpoint insert_pos (le : nat -> nat -> bool) (p : nat) (l : list nat)
  : list nat :=
  match l with
  | [] => [p]
  | q :: l' => if le p q then p :: l else q :: insert_pos le p l'
  end.

Definition lexsort (indices : list Z) (times : list Qc) : list nat :=
  fold_right (insert_pos (lex_leb times indices)) [] (seq 0 (length times)).

End Numpy.
Import Numpy.

(** ** brian2.core.functions.timestep *)

(** Modelled from the spec: [timestep] is imported from
    [brian2.core.functions], which is not part of the sources at hand.  The
    specification gives it as
    [binIndex(time, dt) = floor((time + eps*dt) / dt)] with [eps = 1e-3]. *)
Definition timestep (t dt : Qc) : Z :=
  Qfloor ((t + milli * dt) / dt)%Qc.

(** ** Exceptions and the state-and-exception monad *)

(** The reason carried by an exception (its message, without the
    formatted values). *)
Inductive reason : Type :=
| N_not_integer_ge_1
| length_mismatch
| period_negative
| period_not_greater_than_max
| negative_spike_times
| indices_out_of_interval
| period_smaller_than_dt
| period_not_multiple_of_dt
| multiple_spikes_per_step.

Inductive exn : Type :=
| TypeError (r : reason)
| ValueError (r : reason)
| NotImplementedError (r : reason).

(** The taxonomy of the specification. *)
Inductive error_kind : Type :=
| ConstructionError
| ArgumentError
| PeriodAlignmentError
| CollisionError.

Definition reason_of (e : exn) : reason :=
  match e with
  | TypeError r | ValueError r | NotImplementedError r => r
  end.

Definition kind_of (e : exn) : error_kind :=
  match reason_of e with
  | N_not_integer_ge_1 => ConstructionError
  | length_mismatch | period_negative | period_not_greater_than_max
  | negative_spike_times | indices_out_of_interval => ArgumentError
  | period_smaller_than_dt | period_not_multiple_of_dt => PeriodAlignmentError
  | multiple_spikes_per_step => CollisionError
  end.

(** A warning sent to the logger: spikes before the start time [t] of the
    run are ignored. *)
Inductive warning : Type :=
| ignored_spikes (t : Qc).

(** The attributes of the group that the schedule logic reads or writes.
    [N], [period], [spike_number], [neuron_index], [spike_time] and
    [_lastindex] live in [self.variables]; the fields starting with an
    underscore followed by a name of the former are the copies kept in the
    Python object.  The copies start as [None] in [__init__] and are filled
    by [_check_args] before anything reads them, so they are plain lists
    here.  [log] collects what was sent to [logger.warn]. *)
Record group : Type := mkGroup {
  N : Z;
  period : quantity;
  spike_number : list Z;
  neuron_index : list Z;
  spike_time : list Qc;
  _lastindex : Z;
  _neuron_index : list Z;
  _spike_time : list Qc;
  _spikes_changed : bool;
  _previous_dt : option Qc;
  log : list warning
}.

Inductive outcome (A : Type) : Type :=
| Return (a : A)
| Raise (e : exn).
Arguments Return {A} a.
Arguments Raise {A} e.

(** A method body: it runs on the object, may change it, and returns or
    raises.  The object is handed back in both cases, as an exception does
    not undo assignments made before it. *)
Definition M (A : Type) : Type := group -> group * outcome A.

Definition ret {A : Type} (a : A) : M A := fun self => (self, Return a).

Definition raise {A : Type} (e : exn) : M A := fun self => (self, Raise e).

Definition bind {A B : Type} (m : M A) (f : A -> M B) : M B :=
  fun self =>
    match m self with
    | (self', Return a) => f a self'
    | (self', Raise e) => (self', Raise e)
    end.

Definition get {A : Type} (field : group -> A) : M A :=
  fun self => (self, Return (field self)).

Definition modify (f : group -> group) : M unit :=
  fun self => (f self, Return tt).

Notation "x <- m ;; k" := (bind m (fun x => k))
  (at level 61, m at next level, right associativity).
Notation "m ;; k" := (bind m (fun _ => k))
  (at level 61, right associativity).

(** Python's [if c: body] with no [else]. *)
Definition when (c : bool) (body : M unit) : M unit :=
  if c then body else ret tt.

(** Assignments to the attributes. *)
Definition set_N (v : Z) (g : group) : group :=
  mkGroup v (period g) (spike_number g) (neuron_index g) (spike_time g)
    (_lastindex g) (_neuron_index g) (_spike_time g) (_spikes_changed g)
    (_previous_dt g) (log g).

Definition set_period (v : quantity) (g : group) : group :=
  mkGroup (N g) v (spike_number g) (neuron_index g) (spike_time g)
    (_lastindex g) (_neuron_index g) (_spike_time g) (_spikes_changed g)
    (_previous_dt g) (log g).

Definition set_spike_number (v : list Z) (g : group) : group :=
  mkGroup (N g) (period g) v (neuron_index g) (spike_time g)
    (_lastindex g) (_neuron_index g) (_spike_time g) (_spikes_changed g)
    (_previous_dt g) (log g).

Definition set_neuron_index (v : list Z) (g : group) : group :=
  mkGroup (N g) (period g) (spike_number g) v (spike_time g)
    (_lastindex g) (_neuron_index g) (_spike_time g) (_spikes_changed g)
    (_previous_dt g) (log g).

Definition set_spike_time (v : list Qc) (g : group) : group :=
  mkGroup (N g) (period g) (spike_number g) (neuron_index g) v
    (_lastindex g) (_neuron_index g) (_spike_time g) (_spikes_changed g)
    (_previous_dt g) (log g).

Definition set__lastindex (v : Z) (g : group) : group :=
  mkGroup (N g) (period g) (spike_number g) (neuron_index g) (spike_time g)
    v (_neuron_index g) (_spike_time g) (_spikes_changed g)
    (_previous_dt g) (log g).

Definition set__neuron_index (v : list Z) (g : group) : group :=
  mkGroup (N g) (period g) (spike_number g) (neuron_index g) (spike_time g)
    (_lastindex g) v (_spike_time g) (_spikes_changed g)
    (_previous_dt g) (log g).

Definition set__spike_time (v : list Qc) (g : group) : group :=
  mkGroup (N g) (period g) (spike_number g) (neuron_index g) (spike_time g)
    (_lastindex g) (_neuron_index g) v (_spikes_changed g)
    (_previous_dt g) (log g).

Definition set__spikes_changed (v : bool) (g : group) : group :=
  mkGroup (N g) (period g) (spike_number g) (neuron_index g) (spike_time g)
    (_lastindex g) (_neuron_index g) (_spike_time g) v
    (_previous_dt g) (log g).

Definition set__previous_dt (v : option Qc) (g : group) : group :=
  mkGroup (N g) (period g) (spike_number g) (neuron_index g) (spike_time g)
    (_lastindex g) (_neuron_index g) (_spike_time g) (_spikes_changed g)
    v (log g).

Definition logger_warn (w : warning) (g : group) : group :=
  mkGroup (N g) (period g) (spike_number g) (neuron_index g) (spike_time g)
    (_lastindex g) (_neuron_index g) (_spike_time g) (_spikes_changed g)
    (_previous_dt g) (log g ++ [w]).

(** ** SpikeGeneratorGroup *)

Definition len {A : Type} (a : list A) : Z := Z.of_nat (length a).

(** [_check_args(indices, times, period, N, sorted)]: the five checks in
    the order of the source, then the sort unless [sorted], then the
    assignments to the object, and last the two arrays are returned. *)
Definition _check_args (indices : list Z) (times : list Qc)
    (period : quantity) (N : Z) (sorted : bool) : M (list Z * list Qc) :=
  when (negb (len indices =? len times))
    (raise (ValueError length_mismatch)) ;;
  (if qlt period (Fin (of_Z 0)) then
     raise (ValueError period_negative)
   else if negb (len times =? 0) && qle period (Fin (np_max times)) then
     raise (ValueError period_not_greater_than_max)
   else ret tt) ;;
  when (negb (len times =? 0) && Qcltb (np_min times) (of_Z 0))
    (raise (ValueError negative_spike_times)) ;;
  when (negb (len indices =? 0)
        && ((np_minZ indices <? 0) || (np_maxZ indices >=? N)))
    (raise (ValueError indices_out_of_interval)) ;;
  let '(indices, times) :=
    if negb sorted then
      let I := lexsort indices times in
      (take 0 indices I, take (of_Z 0) times I)
    else (indices, times) in
  modify (set__neuron_index indices) ;;
  modify (set__spike_time times) ;;
  modify (set__spikes_changed true) ;;
  ret (indices, times).

(** [set_spikes(indices, times, period, sorted)]. *)
Definition set_spikes (indices : list Z) (times : list Qc)
    (period : quantity) (sorted : bool) : M unit :=
  N <- get N ;;
  checked <- _check_args indices times period N sorted ;;
  let '(indices, times) := checked in
  modify (set_period period) ;;
  modify (set_spike_number (arange (len indices))) ;;
  modify (set_neuron_index indices) ;;
  modify (set_spike_time times).

(** The attributes at the entry of [__init__], before any assignment. *)
Definition blank : group :=
  mkGroup 0 (Fin (of_Z 0)) [] [] [] 0 [] [] false None [].

(** The body of [__init__(N, indices, times, period, sorted)].  [N] may be
    given as a float, hence the test [int(N) != N]. *)
Definition __init__body (N : Qc) (indices : list Z) (times : list Qc)
    (period : quantity) (sorted : bool) : M unit :=
  modify (set__neuron_index []) ;;
  modify (set__spike_time []) ;;
  modify (set__spikes_changed true) ;;
  when (Qcltb N (of_Z 1) || negb (Qceqb (of_Z (Qtruncate N)) N))
    (raise (TypeError N_not_integer_ge_1)) ;;
  let N := Qtruncate N in
  checked <- _check_args indices times period N sorted ;;
  let '(indices, times) := checked in
  modify (set_N N) ;;
  modify (set_spike_number (arange (len indices))) ;;
  modify (set_neuron_index indices) ;;
  modify (set_spike_time times) ;;
  modify (set__lastindex 0) ;;
  modify (set__previous_dt None) ;;
  modify (set_period period).

(** Construction: the object exists only if [__init__] returns. *)
Definition SpikeGeneratorGroup (N : Qc) (indices : list Z) (times : list Qc)
    (period : quantity) (sorted : bool) : outcome group :=
  match __init__body N indices times period sorted blank with
  | (self, Return _) => Return self
  | (_, Raise e) => Raise e
  end.

(** *** before_run *)

(** The check of the period against [dt] (the first block of
    [before_run]).  [periods] holds the multiples [k * period] for
    [k = 0 .. n_periods - 1]. *)
Definition check_period (dt : Qc) : M unit :=
  period <- get period ;;
  match period with
  | Inf => ret tt                              (* not [period < np.inf] *)
  | Fin p =>
      when (Qcltb p dt)
        (raise (ValueError period_smaller_than_dt)) ;;
      when (Qcltb p thousand)
        (let n_periods := Qtruncate (thousand / p)%Qc in
         let periods := map (fun k => (of_Z k * p)%Qc) (arange n_periods) in
         when (negb (np_all
                 (map (fun x => np_mod x (timestep p dt) =? 0)
                      (map (fun x => timestep x dt) periods))))
           (raise (NotImplementedError period_not_multiple_of_dt)))
  end.

(** The cursor (the block guarded by [self._spikes_changed]). *)
Definition update_lastindex (current_t dt : Qc) : M unit :=
  changed <- get _spikes_changed ;;
  when changed
    (spike_time <- get _spike_time ;;
     let timesteps := map (fun t => timestep t dt) spike_time in
     let current_step := timestep current_t dt in
     let in_the_past := nonzero (map (fun s => s <? current_step) timesteps) in
     if negb (len in_the_past =? 0) then
       modify (logger_warn (ignored_spikes current_t)) ;;
       modify (set__lastindex (Z.of_nat (last in_the_past 0%nat) + 1))
     else
       modify (set__lastindex 0)).

(** The time bins of the last block: every spike is shifted by [1e-3*dt],
    divided by [dt] and converted to [int32]. *)
Definition timebins (spike_time : list Qc) (dt : Qc) : list Z :=
  let shift := (milli * dt)%Qc in
  map (fun t => as_int32 ((t + shift) / dt)%Qc) spike_time.

(** [np.logical_and(np.diff(timebins)==0, np.diff(neuron_index)==0).any()].
    The differences are taken in [Z]; a difference of two values of one
    integer type is zero exactly when they are equal, also where the
    machine subtraction wraps. *)
Definition spikes_collide (bins indices : list Z) : bool :=
  np_any (logical_and (map (fun d => d =? 0) (np_diff bins))
                      (map (fun d => d =? 0) (np_diff indices))).

(** The check for more than one spike per neuron in a time bin (the last
    block). *)
Definition check_bins (dt : Qc) : M unit :=
  previous_dt <- get _previous_dt ;;
  changed <- get _spikes_changed ;;
  when (match previous_dt with
        | None => true
        | Some d => negb (Qceqb dt d)
        end || changed)
    (spike_time <- get _spike_time ;;
     neuron_index <- get _neuron_index ;;
     when (spikes_collide (timebins spike_time dt) neuron_index)
       (raise (ValueError multiple_spikes_per_step)) ;;
     modify (set__previous_dt (Some dt)) ;;
     modify (set__spikes_changed false)).

(** [before_run]: [current_t] is the value of the clock variable [t] and
    [dt] the value of [self.dt_] when the run starts. *)
Definition before_run (current_t dt : Qc) : M unit :=
  check_period dt ;;
  update_lastindex current_t dt ;;
  check_bins dt.

(** *** The numeric blocks of [before_run] in binary64 *)

Module F64.

(** The value of a finite binary64 number as a rational; [0] stands for
    [nan] and the infinities, which the two blocks below do not produce
    from finite times, a finite period and [dt > 0] (the division of
    [check_period_float] is by a period of at least [dt]). *)
Definition to_Q (x : float) : Q :=
  match Prim2SF x with
  | S754_finite s m e =>
      let v := if 0 <=? e then inject_Z (Zpos m * 2 ^ e)
               else (Zpos m # Z.to_pos (2 ^ (- e))) in
      if s then Qopp v else v
  | _ => 0%Q
  end.

Definition to_Qc (x : float) : Qc := Q2Qc (to_Q x).

Definition is_finite (x : float) : bool :=
  match Prim2SF x with
  | S754_zero _ | S754_finite _ _ _ => true
  | _ => false
  end.

(** Python's [int(x)] on a finite float. *)
Definition to_int (x : float) : Z := Qtruncate (to_Q x).

(** [np.asarray(x, dtype=np.int32)] on a float: [as_int32] on its value;
    [nan] and the infinities also give the "integer indefinite" value. *)
Definition to_int32 (x : float) : Z :=
  if is_finite x then as_int32 (to_Q x) else int32_min.

(** An integer of [np.arange(n)] as a float64 (exact below [2^53]). *)
Definition of_int (k : Z) : float := PrimFloat.of_uint63 (Uint63.of_Z k).

(** The literal [1e-3]: the binary64 number nearest to 1/1000. *)
Definition milli : float := 0x1.0624dd2f1a9fcp-10%float.

End F64.

(** [timestep] (modelled from the spec, see above) at the values of two
    floats. *)
Definition timestep_float (t dt : float) : Z :=
  timestep (F64.to_Qc t) (F64.to_Qc dt).

(** The check of the period against [dt] (the first block of
    [before_run]) with the float operations of the source: the
    comparisons, [int(1000. / period)] and [np.arange(n_periods) * period]
    are those of binary64.  The block reads [period] and [dt] and assigns
    nothing, so it is a function of the two. *)
Definition check_period_float (period dt : float) : outcome unit :=
  if (period <? infinity)%float then
    if (period <? dt)%float then Raise (ValueError period_smaller_than_dt)
    else if (period <? 1000)%float then
      let n_periods := F64.to_int (1000 / period)%float in
      let periods :=
        map (fun k => (F64.of_int k * period)%float) (arange n_periods) in
      if negb (np_all
                 (map (fun x => np_mod x (timestep_float period dt) =? 0)
                      (map (fun x => timestep_float x dt) periods)))
      then Raise (NotImplementedError period_not_multiple_of_dt)
      else Return tt
    else Return tt
  else Return tt.

(** The time bins of the last block of [before_run] with the float
    operations of the source: [shift = 1e-3*dt], then
    [(spike_time + shift) / dt] in binary64, then the conversion to
    [int32]. *)
Definition timebins_float (spike_time : list float) (dt : float) : list Z :=
  let shift := (F64.milli * dt)%float in
  map (fun t => F64.to_int32 ((t + shift) / dt)%float) spike_time.

(** *** The [spikes] property *)

(** Python's [a[-1]] on an integer array. *)
Definition py_last (a : list Z) : Z := last a 0.

(** Python's slice [a[:k]]: the first [k] elements, all of [a] when [k]
    exceeds its length, and for a negative [k] all but the last [-k]. *)
Definition py_slice_to {A : Type} (a : list A) (k : Z) : list A :=
  if k <? 0 then firstn (Z.to_nat (len a + k)) a else firstn (Z.to_nat k) a.

(** The array [_spikespace] that [__init__] adds: [N + 1] cells of [int32],
    zero at first.  The stepping code writes the indices of the neurons
    that spiked into the first cells and their number into the last. *)
Definition initial__spikespace (N : Z) : list Z := repeat 0 (Z.to_nat (N + 1)).

(** [spikes]: [spikespace[:spikespace[-1]]], given the value of the
    [_spikespace] variable. *)
Definition spikes (spikespace : list Z) : list Z :=
  py_slice_to spikespace (py_last spikespace).

(** * Notions used in the statements *)

(** The conjunction of the five checks of [_check_args]. *)
Definition args_valid (indices : list Z) (times : list Qc)
    (period : quantity) (N : Z) : bool :=
  (len indices =? len times)
  && negb (qlt period (Fin (of_Z 0)))
  && negb (negb (len times =? 0) && qle period (Fin (np_max times)))
  && negb (negb (len times =? 0) && Qcltb (np_min times) (of_Z 0))
  && negb (negb (len indices =? 0)
           && ((np_minZ indices <? 0) || (np_maxZ indices >=? N))).

(** The arrays [_check_args] returns once the checks have passed. *)
Definition canonical (indices : list Z) (times : list Qc) (sorted : bool)
  : list Z * list Qc :=
  if negb sorted then
    (take 0 indices (lexsort indices times),
     take (of_Z 0) times (lexsort indices times))
  else (indices, times).

(** The object after a successful [set_spikes]. *)
Definition replaced (self : group) (indices : list Z) (times : list Qc)
    (period : quantity) : group :=
  mkGroup (N self) period (arange (len indices)) indices times
    (_lastindex self) indices times true (_previous_dt self) (log self).

(** The object a successful construction returns. *)
Definition constructed (N : Z) (indices : list Z) (times : list Qc)
    (period : quantity) : group :=
  mkGroup N period (arange (len indices)) indices times 0 indices times true
    None [].

Definition N_valid (N : Qc) : bool :=
  negb (Qcltb N (of_Z 1) || negb (Qceqb (of_Z (Qtruncate N)) N)).

(** The five ways an input can be invalid: the lengths differ, the period
    is negative, the period does not exceed some spike time, a spike time
    is negative, an index lies outside [0, N). *)
Definition fails_validation (indices : list Z) (times : list Qc)
    (period : quantity) (N : Z) : Prop :=
  length indices <> length times
  \/ (exists p, period = Fin p /\ (p < of_Z 0)%Qc)
  \/ (exists p t, period = Fin p /\ In t times /\ (p <= t)%Qc)
  \/ (exists t, In t times /\ (t < of_Z 0)%Qc)
  \/ (exists i, In i indices /\ ~ (0 <= i < N)).

(** The positions of the spikes whose time step lies before the current
    one, as [before_run] computes them. *)
Definition in_the_past (spike_time : list Qc) (current_t dt : Qc) : list nat :=
  nonzero (map (fun s => s <? timestep current_t dt)
               (map (fun t => timestep t dt) spike_time)).

(** Whether the last block of [before_run] runs its check. *)
Definition bins_check_due (self : group) (dt : Qc) : bool :=
  match _previous_dt self with
  | None => true
  | Some d => negb (Qceqb dt d)
  end || _spikes_changed self.

(** Modelled from the spec: the stepping runtime (the [spikegenerator]
    template, not part of the sources at hand) advances the cursor during a
    run; the specification keeps it non-decreasing and at most the number
    of stored events.  This is the last rule below; the other three are the
    construction and the two methods. *)
Inductive reachable : group -> Prop :=
| reach_new N indices times period sorted g :
    SpikeGeneratorGroup N indices times period sorted = Return g ->
    reachable g
| reach_set_spikes indices times period sorted g :
    reachable g ->
    reachable (fst (set_spikes indices times period sorted g))
| reach_before_run current_t dt g :
    reachable g ->
    reachable (fst (before_run current_t dt g))
| reach_step c g :
    reachable g ->
    _lastindex g <= c <= len (spike_time g) ->
    reachable (set__lastindex c g).

(** What holds in every such state: the copies in the Python object agree
    with the arrays, the two arrays have one length, and a clean, empty
    schedule has its cursor at 0. *)
Definition consistent (g : group) : Prop :=
  spike_time g = _spike_time g
  /\ neuron_index g = _neuron_index g
  /\ length (_neuron_index g) = length (_spike_time g)
  /\ (_spikes_changed g = false -> _spike_time g = [] -> _lastindex g = 0).

(** The multiples that [check_period] samples all pass. *)
Definition multiples_ok (p dt : Qc) : bool :=
  np_all (map (fun x => np_mod x (timestep p dt) =? 0)
            (map (fun x => timestep x dt)
               (map (fun k => (of_Z k * p)%Qc)
                  (arange (Qtruncate (thousand / p)%Qc))))).

(** The index of the first event whose bin is at least [cur], or the
    number of events if there is none (the cursor in the words of the
    specification). *)
Fixpoint first_not_past (bins : list Z) (cur : Z) : nat :=
  match bins with
  | [] => 0
  | b :: bins' => if cur <=? b then 0%nat else S (first_not_past bins' cur)
  end.

(** The value [before_run] gives to [_lastindex] when the flag is set. *)
Definition cursor_at (spike_time : list Qc) (current_t dt : Qc) : Z :=
  if negb (len (in_the_past spike_time current_t dt) =? 0)
  then Z.of_nat (last (in_the_past spike_time current_t dt) 0%nat) + 1
  else 0.

(** An event is a pair of a neuron index and a spike time. *)
Abbreviation event := (Z * Qc)%type (only parsing).

(** Ascending by time first and by index among equal times. *)
Definition event_le (a b : event) : Prop :=
  (snd a < snd b)%Qc \/ (snd a = snd b /\ fst a <= fst b).

Definition event_leb (a b : event) : bool :=
  Qcltb (snd a) (snd b) || (Qceqb (snd a) (snd b) && (fst a <=? fst b)).

(** The event at position [p] of the two input arrays. *)
Definition event_at (indices : list Z) (times : list Qc) (p : nat) : event :=
  (nth p indices 0, nth p times (of_Z 0)).

(** The order [np.lexsort] leaves the positions in: ascending by event,
    and by position among equal events (the sort is stable). *)
Definition stable_le (indices : list Z) (times : list Qc) (p q : nat) : Prop :=
  event_le (event_at indices times p) (event_at indices times q)
  /\ (event_le (event_at indices times q) (event_at indices times p) ->
      (p < q)%nat).

(** The arrays [ids], [ts] are the input events sorted: as pairs they are
    a permutation of the input and ascending by (time, index), and they
    are the input arrays read through one permutation of the positions
    that is ascending and stable. *)
Definition sorted_input (indices : list Z) (times : list Qc)
    (ids : list Z) (ts : list Qc) : Prop :=
  length ids = length times
  /\ length ts = length times
  /\ Permutation (combine ids ts) (combine indices times)
  /\ StronglySorted event_le (combine ids ts)
  /\ exists I, Permutation I (seq 0 (length times))
               /\ StronglySorted (stable_le indices times) I
               /\ ids = take 0 indices I
               /\ ts = take (of_Z 0) times I.

(** The group stores [ids], [ts] as its schedule, in the variables and in
    the copies of the Python object, numbered [0 .. M-1]. *)
Definition stores (g : group) (ids : list Z) (ts : list Qc) : Prop :=
  neuron_index g = ids /\ spike_time g = ts
  /\ _neuron_index g = ids /\ _spike_time g = ts
  /\ spike_number g = arange (len ids).

(** The schedule a group holds is well formed: at least one neuron, every
    stored index names a neuron, no stored time is negative, a finite
    period is not negative and lies above every stored time, the arrays
    have one length and are numbered [0 .. M-1], and the copies kept in the
    Python object are the stored arrays. *)
Definition valid_schedule (g : group) : Prop :=
  1 <= N g
  /\ Forall (fun i => 0 <= i < N g) (neuron_index g)
  /\ Forall (fun t => (of_Z 0 <= t)%Qc) (spike_time g)
  /\ (forall p, period g = Fin p ->
                (of_Z 0 <= p)%Qc /\ Forall (fun t => (t < p)%Qc) (spike_time g))
  /\ length (neuron_index g) = length (spike_time g)
  /\ spike_number g = arange (len (spike_time g))
  /\ _neuron_index g = neuron_index g
  /\ _spike_time g = spike_time g.

(** A spike time whose bin fits [int32]. *)
Definition bin_in_range (dt t : Qc) : Prop :=
  (of_Z 0 <= t)%Qc /\ ((t + milli * dt) / dt < of_Z (2 ^ 31))%Qc.

(** * Properties *)

(** Running a method body: the operations of the monad are unfolded, which
    leaves the conditionals of the source. *)
Ltac run_body := unfold bind, when, ret, raise, get, modify.

(** ** Comparisons of rationals *)

Section Comparisons.

Local Open Scope Qc_scope.

Lemma Qcltb_lt (x y : Qc) : Qcltb x y = true <-> x < y.
Proof.
  unfold Qcltb. rewrite Qclt_alt.
  destruct (x ?= y); split; congruence.
Qed.

Lemma Qcleb_le (x y : Qc) : Qcleb x y = true <-> x <= y.
Proof.
  unfold Qcleb. rewrite Qcle_alt.
  destruct (x ?= y); split; congruence.
Qed.

Lemma Qceqb_eq (x y : Qc) : Qceqb x y = true <-> x = y.
Proof.
  unfold Qceqb. rewrite Qceq_alt.
  destruct (x ?= y); split; congruence.
Qed.

Lemma Qcltb_ge (x y : Qc) : Qcltb x y = false <-> y <= x.
Proof.
  split; intro H.
  - apply Qcnot_lt_le. intro L. apply Qcltb_lt in L. congruence.
  - destruct (Qcltb x y) eqn:E; [|reflexivity].
    apply Qcltb_lt in E. exfalso. exact (Qcle_not_lt _ _ H E).
Qed.

Lemma Qcleb_gt (x y : Qc) : Qcleb x y = false <-> y < x.
Proof.
  split; intro H.
  - apply Qcnot_le_lt. intro L. apply Qcleb_le in L. congruence.
  - destruct (Qcleb x y) eqn:E; [|reflexivity].
    apply Qcleb_le in E. exfalso. exact (Qclt_not_le _ _ H E).
Qed.

Lemma Qceqb_refl (x : Qc) : Qceqb x x = true.
Proof. now apply Qceqb_eq. Qed.

Lemma Qcle_total (x y : Qc) : x <= y \/ y <= x.
Proof.
  destruct (Qclt_le_dec x y) as [L|L]; [left; now apply Qclt_le_weak | now right].
Qed.

End Comparisons.

(** ** [np.max] and [np.min] *)

Section Extrema.

Local Open Scope Qc_scope.

Lemma fold_max_spec (l : list Qc) (x : Qc) :
  let m := fold_left (fun m y => if Qcltb m y then y else m) l x in
  In m (x :: l) /\ forall y, In y (x :: l) -> y <= m.
Proof.
  revert x. induction l as [|a l IH]; intro x; cbn [fold_left].
  - split; [now left|]. intros y [<-|[]]. apply Qcle_refl.
  - destruct (IH (if Qcltb x a then a else x)) as [Hin Hub].
    split.
    + destruct Hin as [E|Hin]; [|now right; right].
      rewrite <- E. destruct (Qcltb x a); [right; now left | now left].
    + intros y Hy.
      assert (Hstep : x <= (if Qcltb x a then a else x)
                      /\ a <= (if Qcltb x a then a else x)).
      { destruct (Qcltb x a) eqn:E.
        - split; [apply Qclt_le_weak; now apply Qcltb_lt | apply Qcle_refl].
        - split; [apply Qcle_refl | now apply Qcltb_ge]. }
      destruct Hstep as [Hx Ha].
      destruct Hy as [<-|[<-|Hy]].
      * eapply Qcle_trans; [exact Hx|]. apply Hub. now left.
      * eapply Qcle_trans; [exact Ha|]. apply Hub. now left.
      * apply Hub. now right.
Qed.

Lemma fold_min_spec (l : list Qc) (x : Qc) :
  let m := fold_left (fun m y => if Qcltb y m then y else m) l x in
  In m (x :: l) /\ forall y, In y (x :: l) -> m <= y.
Proof.
  revert x. induction l as [|a l IH]; intro x; cbn [fold_left].
  - split; [now left|]. intros y [<-|[]]. apply Qcle_refl.
  - destruct (IH (if Qcltb a x then a else x)) as [Hin Hlb].
    split.
    + destruct Hin as [E|Hin]; [|now right; right].
      rewrite <- E. destruct (Qcltb a x); [right; now left | now left].
    + intros y Hy.
      assert (Hstep : (if Qcltb a x then a else x) <= x
                      /\ (if Qcltb a x then a else x) <= a).
      { destruct (Qcltb a x) eqn:E.
        - split; [apply Qclt_le_weak; now apply Qcltb_lt | apply Qcle_refl].
        - split; [apply Qcle_refl | now apply Qcltb_ge]. }
      destruct Hstep as [Hx Ha].
      destruct Hy as [<-|[<-|Hy]].
      * eapply Qcle_trans; [|exact Hx]. apply Hlb. now left.
      * eapply Qcle_trans; [|exact Ha]. apply Hlb. now left.
      * apply Hlb. now right.
Qed.

Lemma np_max_spec (l : list Qc) :
  l <> [] -> In (np_max l) l /\ forall y, In y l -> y <= np_max l.
Proof.
  destruct l as [|x l]; [congruence|]. intros _. apply fold_max_spec.
Qed.

Lemma np_min_spec (l : list Qc) :
  l <> [] -> In (np_min l) l /\ forall y, In y l -> np_min l <= y.
Proof.
  destruct l as [|x l]; [congruence|]. intros _. apply fold_min_spec.
Qed.

Lemma np_min_le_max (l : list Qc) : l <> [] -> np_min l <= np_max l.
Proof.
  intro H. destruct (np_max_spec l H) as [_ Hub].
  apply Hub. now apply np_min_spec.
Qed.

Lemma np_max_perm (l l' : list Qc) : Permutation l l' -> np_max l = np_max l'.
Proof.
  intro P. destruct l as [|x l].
  - apply Permutation_nil in P. now subst.
  - assert (N1 : x :: l <> []) by congruence.
    assert (N2 : l' <> []).
    { intro E. subst. apply Permutation_sym, Permutation_nil in P. congruence. }
    destruct (np_max_spec _ N1) as [I1 U1], (np_max_spec _ N2) as [I2 U2].
    apply Qcle_antisym.
    + apply U2. eapply Permutation_in; eauto.
    + apply U1. eapply Permutation_in; [apply Permutation_sym|]; eauto.
Qed.

Lemma np_min_perm (l l' : list Qc) : Permutation l l' -> np_min l = np_min l'.
Proof.
  intro P. destruct l as [|x l].
  - apply Permutation_nil in P. now subst.
  - assert (N1 : x :: l <> []) by congruence.
    assert (N2 : l' <> []).
    { intro E. subst. apply Permutation_sym, Permutation_nil in P. congruence. }
    destruct (np_min_spec _ N1) as [I1 U1], (np_min_spec _ N2) as [I2 U2].
    apply Qcle_antisym.
    + apply U1. eapply Permutation_in; [apply Permutation_sym|]; eauto.
    + apply U2. eapply Permutation_in; eauto.
Qed.

End Extrema.

Lemma fold_maxZ_spec (l : list Z) (x : Z) :
  In (fold_left Z.max l x) (x :: l)
  /\ forall y, In y (x :: l) -> y <= fold_left Z.max l x.
Proof.
  revert x. induction l as [|a l IH]; intro x; cbn [fold_left].
  - split; [now left|]. intros y [<-|[]]. lia.
  - destruct (IH (Z.max x a)) as [Hin Hub]. split.
    + destruct Hin as [E|Hin]; [|now right; right].
      rewrite <- E. destruct (Z.max_spec x a) as [[_ ->]|[_ ->]];
        [right; now left | now left].
    + intros y Hy.
      assert (Hm : Z.max x a <= fold_left Z.max l (Z.max x a))
        by (apply Hub; now left).
      destruct Hy as [<-|[<-|Hy]]; [lia | lia | apply Hub; now right].
Qed.

Lemma fold_minZ_spec (l : list Z) (x : Z) :
  In (fold_left Z.min l x) (x :: l)
  /\ forall y, In y (x :: l) -> fold_left Z.min l x <= y.
Proof.
  revert x. induction l as [|a l IH]; intro x; cbn [fold_left].
  - split; [now left|]. intros y [<-|[]]. lia.
  - destruct (IH (Z.min x a)) as [Hin Hlb]. split.
    + destruct Hin as [E|Hin]; [|now right; right].
      rewrite <- E. destruct (Z.min_spec x a) as [[_ ->]|[_ ->]];
        [now left | right; now left].
    + intros y Hy.
      assert (Hm : fold_left Z.min l (Z.min x a) <= Z.min x a)
        by (apply Hlb; now left).
      destruct Hy as [<-|[<-|Hy]]; [lia | lia | apply Hlb; now right].
Qed.

Lemma np_maxZ_perm (l l' : list Z) : Permutation l l' -> np_maxZ l = np_maxZ l'.
Proof.
  intro P. destruct l as [|x l].
  - apply Permutation_nil in P. now subst.
  - destruct l' as [|x' l'].
    { apply Permutation_sym, Permutation_nil in P. congruence. }
    cbn [np_maxZ].
    destruct (fold_maxZ_spec l x) as [I1 U1], (fold_maxZ_spec l' x') as [I2 U2].
    apply Z.le_antisymm.
    + apply U2. eapply Permutation_in; eauto.
    + apply U1. eapply Permutation_in; [apply Permutation_sym|]; eauto.
Qed.

Lemma np_minZ_perm (l l' : list Z) : Permutation l l' -> np_minZ l = np_minZ l'.
Proof.
  intro P. destruct l as [|x l].
  - apply Permutation_nil in P. now subst.
  - destruct l' as [|x' l'].
    { apply Permutation_sym, Permutation_nil in P. congruence. }
    cbn [np_minZ].
    destruct (fold_minZ_spec l x) as [I1 U1], (fold_minZ_spec l' x') as [I2 U2].
    apply Z.le_antisymm.
    + apply U1. eapply Permutation_in; [apply Permutation_sym|]; eauto.
    + apply U2. eapply Permutation_in; eauto.
Qed.

(** ** What [_check_args], [set_spikes] and [__init__] compute *)

Lemma _check_args_valid indices times period N sorted self :
  args_valid indices times period N = true ->
  _check_args indices times period N sorted self =
  (set__spikes_changed true
     (set__spike_time (snd (canonical indices times sorted))
        (set__neuron_index (fst (canonical indices times sorted)) self)),
   Return (canonical indices times sorted)).
Proof.
  unfold args_valid, _check_args, canonical. run_body.
  intro H. repeat (apply andb_prop in H; destruct H as [H ?]).
  rewrite H. cbn [negb].
  destruct (qlt period (Fin (of_Z 0))); [discriminate|].
  destruct (negb (len times =? 0) && qle period (Fin (np_max times)));
    [discriminate|].
  destruct (negb (len times =? 0) && Qcltb (np_min times) (of_Z 0));
    [discriminate|].
  destruct (negb (len indices =? 0)
            && ((np_minZ indices <? 0) || (np_maxZ indices >=? N)));
    [discriminate|].
  destruct sorted; reflexivity.
Qed.

Lemma _check_args_invalid indices times period N sorted self :
  args_valid indices times period N = false ->
  exists e, _check_args indices times period N sorted self = (self, Raise e)
            /\ kind_of e = ArgumentError.
Proof.
  unfold args_valid, _check_args. run_body.
  intro H.
  destruct (len indices =? len times); cbn [negb];
    [|eexists; split; reflexivity].
  destruct (qlt period (Fin (of_Z 0)));
    [eexists; split; reflexivity|].
  destruct (negb (len times =? 0) && qle period (Fin (np_max times)));
    [eexists; split; reflexivity|].
  destruct (negb (len times =? 0) && Qcltb (np_min times) (of_Z 0));
    [eexists; split; reflexivity|].
  destruct (negb (len indices =? 0)
            && ((np_minZ indices <? 0) || (np_maxZ indices >=? N)));
    [eexists; split; reflexivity|].
  discriminate.
Qed.

Lemma set_spikes_valid indices times period sorted self :
  args_valid indices times period (N self) = true ->
  set_spikes indices times period sorted self =
  (replaced self (fst (canonical indices times sorted))
     (snd (canonical indices times sorted)) period, Return tt).
Proof.
  intro H. unfold set_spikes, bind, get.
  rewrite (_check_args_valid _ _ _ _ sorted _ H).
  destruct (canonical indices times sorted) as [ids ts]. reflexivity.
Qed.

Lemma set_spikes_invalid indices times period sorted self :
  args_valid indices times period (N self) = false ->
  exists e, set_spikes indices times period sorted self = (self, Raise e)
            /\ kind_of e = ArgumentError.
Proof.
  intro H. unfold set_spikes, bind, get.
  destruct (_check_args_invalid _ _ _ _ sorted self H) as (e & -> & K).
  now exists e.
Qed.

Lemma SpikeGeneratorGroup_valid N indices times period sorted :
  N_valid N = true ->
  args_valid indices times period (Qtruncate N) = true ->
  SpikeGeneratorGroup N indices times period sorted =
  Return (constructed (Qtruncate N) (fst (canonical indices times sorted))
            (snd (canonical indices times sorted)) period).
Proof.
  unfold N_valid. intros HN H.
  unfold SpikeGeneratorGroup, __init__body. run_body.
  apply negb_true_iff in HN. rewrite HN.
  rewrite (_check_args_valid _ _ _ _ sorted _ H).
  destruct (canonical indices times sorted) as [ids ts]. reflexivity.
Qed.

Lemma SpikeGeneratorGroup_invalid N indices times period sorted :
  N_valid N && args_valid indices times period (Qtruncate N) = false ->
  exists e, SpikeGeneratorGroup N indices times period sorted = Raise e.
Proof.
  unfold N_valid. intros H.
  unfold SpikeGeneratorGroup, __init__body. run_body.
  destruct (Qcltb N (of_Z 1) || negb (Qceqb (of_Z (Qtruncate N)) N));
    [eexists; reflexivity|].
  cbn [negb andb] in H.
  destruct (_check_args_invalid _ _ _ _ sorted
              (set__spikes_changed true
                 (set__spike_time [] (set__neuron_index [] blank))) H)
    as (e & -> & _).
  now exists e.
Qed.

(** ** The validation in the words of the specification *)

Lemma len_nonzero {A : Type} (l : list A) : (len l =? 0) = false <-> l <> [].
Proof.
  unfold len. destruct l; cbn [length]; split; intro H;
    try congruence; try discriminate.
  apply Z.eqb_neq. lia.
Qed.

Lemma np_maxZ_spec (l : list Z) :
  l <> [] -> In (np_maxZ l) l /\ forall y, In y l -> y <= np_maxZ l.
Proof.
  destruct l as [|x l]; [congruence|]. intros _. apply fold_maxZ_spec.
Qed.

Lemma np_minZ_spec (l : list Z) :
  l <> [] -> In (np_minZ l) l /\ forall y, In y l -> np_minZ l <= y.
Proof.
  destruct l as [|x l]; [congruence|]. intros _. apply fold_minZ_spec.
Qed.

Lemma In_nonempty {A : Type} (x : A) (l : list A) : In x l -> l <> [].
Proof. destruct l; [intros [] | congruence]. Qed.

Lemma fails_validation_invalid indices times period N :
  fails_validation indices times period N ->
  args_valid indices times period N = false.
Proof.
  unfold args_valid. rewrite !andb_false_iff, !negb_false_iff.
  intros [H|[(p & -> & H)|[(p & t & -> & Ht & H)|[(t & Ht & H)|(i & Hi & H)]]]].
  - do 4 left. apply Z.eqb_neq. unfold len. lia.
  - do 3 left. right. cbn [qlt]. now apply Qcltb_lt.
  - do 2 left. right. apply andb_true_iff. split.
    + apply negb_true_iff, len_nonzero. eapply In_nonempty; eauto.
    + cbn [qle]. apply Qcleb_le. eapply Qcle_trans; [exact H|].
      apply np_max_spec; [eapply In_nonempty|]; eauto.
  - left. right. apply andb_true_iff. split.
    + apply negb_true_iff, len_nonzero. eapply In_nonempty; eauto.
    + apply Qcltb_lt. eapply Qcle_lt_trans; [|exact H].
      apply np_min_spec; [eapply In_nonempty|]; eauto.
  - right. apply andb_true_iff. split.
    + apply negb_true_iff, len_nonzero. eapply In_nonempty; eauto.
    + assert (NE : indices <> []) by (eapply In_nonempty; eauto).
      destruct (np_minZ_spec _ NE) as [_ Hlo], (np_maxZ_spec _ NE) as [_ Hhi].
      specialize (Hlo _ Hi). specialize (Hhi _ Hi).
      apply orb_true_iff.
      destruct (Z_lt_dec i 0); [left; apply Z.ltb_lt; lia|].
      right. apply Z.geb_le. lia.
Qed.

Lemma invalid_fails_validation indices times period N :
  args_valid indices times period N = false ->
  fails_validation indices times period N.
Proof.
  unfold args_valid, fails_validation.
  rewrite !andb_false_iff, !negb_false_iff.
  intros [[[[H|H]|H]|H]|H].
  - left. apply Z.eqb_neq in H. unfold len in H. lia.
  - right; left. destruct period as [p|]; [|discriminate].
    exists p. split; [reflexivity|]. now apply Qcltb_lt.
  - right; right; left. apply andb_true_iff in H as [NE H].
    apply negb_true_iff, len_nonzero in NE.
    destruct period as [p|]; [|discriminate].
    exists p, (np_max times). split; [reflexivity|]. split.
    + now apply np_max_spec.
    + now apply Qcleb_le.
  - right; right; right; left. apply andb_true_iff in H as [NE H].
    apply negb_true_iff, len_nonzero in NE.
    exists (np_min times). split; [now apply np_min_spec | now apply Qcltb_lt].
  - right; right; right; right. apply andb_true_iff in H as [NE H].
    apply negb_true_iff, len_nonzero in NE.
    apply orb_true_iff in H as [H|H].
    + exists (np_minZ indices). split; [now apply np_minZ_spec|].
      apply Z.ltb_lt in H. lia.
    + exists (np_maxZ indices). split; [now apply np_maxZ_spec|].
      apply Z.geb_le in H. lia.
Qed.

(** ** C7 and C9: the argument validator *)

(** C7.  Whenever [_check_args] is called (from [__init__] or from
    [set_spikes]) with a non-empty [times] array and a period of 0, it
    raises an argument error.  With an empty [times] array and a period of
    0 the period checks pass: the call returns the (empty) arrays when
    [indices] is empty too, and fails only for the length mismatch
    otherwise. *)
Theorem C7_zero_period indices times N sorted self :
  (times <> [] ->
   exists e,
     _check_args indices times (Fin (of_Z 0)) N sorted self = (self, Raise e)
     /\ kind_of e = ArgumentError)
  /\ (times = [] ->
      (indices = []
       /\ snd (_check_args indices times (Fin (of_Z 0)) N sorted self)
          = Return ([], []))
      \/ (indices <> []
          /\ _check_args indices times (Fin (of_Z 0)) N sorted self
             = (self, Raise (ValueError length_mismatch)))).
Proof.
  split.
  - intro NE. apply _check_args_invalid, fails_validation_invalid.
    destruct (Qclt_le_dec (np_max times) (of_Z 0)) as [L|L].
    + right; right; right; left. exists (np_max times).
      split; [now apply np_max_spec | exact L].
    + right; right; left. exists (of_Z 0), (np_max times).
      split; [reflexivity|]. split; [now apply np_max_spec | exact L].
  - intros ->. destruct indices as [|i indices].
    + left. split; [reflexivity|]. now destruct sorted.
    + right. split; [congruence|]. reflexivity.
Qed.

Lemma C7_zero_period_witness :
  (exists e,
     _check_args [0] [of_Z 1] (Fin (of_Z 0)) 1 false blank = (blank, Raise e)
     /\ kind_of e = ArgumentError)
  /\ snd (_check_args [] [] (Fin (of_Z 0)) 1 false blank) = Return ([], []).
Proof.
  split.
  - apply (proj1 (C7_zero_period [0] [of_Z 1] 1 false blank)). discriminate.
  - destruct (proj2 (C7_zero_period [] [] 1 false blank) eq_refl)
      as [[_ H]|[H _]]; [exact H | now elim H].
Defined.

(** C9.  [set_spikes] is atomic on failure: an input that fails one of the
    checks (lengths differ, negative period, period not above the largest
    spike time, negative spike time, index outside [0, N)) makes the call
    raise an argument error with the object exactly as it was; and
    whenever [set_spikes] raises, the object (schedule, period,
    [spike_number], dirty flag and all other attributes) is unchanged. *)
Theorem C9_set_spikes_atomic indices times period sorted self :
  (fails_validation indices times period (N self) ->
   exists e, set_spikes indices times period sorted self = (self, Raise e)
             /\ kind_of e = ArgumentError)
  /\ (forall e, snd (set_spikes indices times period sorted self) = Raise e ->
      fst (set_spikes indices times period sorted self) = self
      /\ kind_of e = ArgumentError).
Proof.
  split.
  - intro F. now apply set_spikes_invalid, fails_validation_invalid.
  - intros e H.
    destruct (args_valid indices times period (N self)) eqn:V.
    + rewrite (set_spikes_valid _ _ _ sorted _ V) in H. discriminate.
    + destruct (set_spikes_invalid _ _ _ sorted _ V) as (e' & E & K).
      rewrite E in *. cbn in H. now inversion H; subst.
Qed.

Lemma C9_set_spikes_atomic_witness :
  exists e,
    set_spikes [0] [of_Z (-1)] Inf false (constructed 1 [] [] Inf)
    = (constructed 1 [] [] Inf, Raise e)
    /\ kind_of e = ArgumentError.
Proof.
  apply (proj1 (C9_set_spikes_atomic [0] [of_Z (-1)] Inf false
                  (constructed 1 [] [] Inf))).
  right; right; right; left. exists (of_Z (-1)).
  split; [now left | reflexivity].
Defined.

(** ** The three blocks of [before_run] *)

Lemma check_period_state dt self : fst (check_period dt self) = self.
Proof.
  unfold check_period. run_body.
  destruct (period self) as [p|]; [|reflexivity].
  destruct (Qcltb p dt); [reflexivity|].
  destruct (Qcltb p thousand); [|reflexivity].
  match goal with |- context [negb ?b] => destruct b end; reflexivity.
Qed.

Lemma check_period_cases dt self :
  check_period dt self = (self, Return tt)
  \/ exists e, check_period dt self = (self, Raise e)
               /\ kind_of e = PeriodAlignmentError.
Proof.
  unfold check_period. run_body.
  destruct (period self) as [p|]; [|now left].
  destruct (Qcltb p dt); [right; eexists; split; reflexivity|].
  destruct (Qcltb p thousand); [|now left].
  match goal with |- context [negb ?b] => destruct b end;
    [now left | right; eexists; split; reflexivity].
Qed.

Lemma update_lastindex_eq current_t dt self :
  update_lastindex current_t dt self =
  (if _spikes_changed self then
     if negb (len (in_the_past (_spike_time self) current_t dt) =? 0) then
       set__lastindex
         (Z.of_nat (last (in_the_past (_spike_time self) current_t dt) 0%nat)
          + 1)
         (logger_warn (ignored_spikes current_t) self)
     else set__lastindex 0 self
   else self,
   Return tt).
Proof.
  unfold update_lastindex, in_the_past. run_body.
  destruct (_spikes_changed self); [|reflexivity].
  match goal with |- context [negb ?b] => destruct b end; reflexivity.
Qed.

Lemma check_bins_eq dt self :
  check_bins dt self =
  if bins_check_due self dt then
    if spikes_collide (timebins (_spike_time self) dt) (_neuron_index self)
    then (self, Raise (ValueError multiple_spikes_per_step))
    else (set__spikes_changed false (set__previous_dt (Some dt) self),
          Return tt)
  else (self, Return tt).
Proof.
  unfold check_bins, bins_check_due. run_body.
  destruct (match _previous_dt self with
            | Some d => negb (Qceqb dt d)
            | None => true
            end || _spikes_changed self); [|reflexivity].
  destruct (spikes_collide (timebins (_spike_time self) dt)
              (_neuron_index self)); reflexivity.
Qed.

(** [before_run] once the period checks have passed. *)
Lemma before_run_period_ok current_t dt self :
  check_period dt self = (self, Return tt) ->
  before_run current_t dt self =
  check_bins dt (fst (update_lastindex current_t dt self)).
Proof.
  intro H. unfold before_run, bind. rewrite H.
  rewrite update_lastindex_eq. reflexivity.
Qed.

(** [before_run] when the period checks fail: nothing else is done. *)
Lemma before_run_period_raise current_t dt self e :
  check_period dt self = (self, Raise e) ->
  before_run current_t dt self = (self, Raise e).
Proof.
  intro H. unfold before_run, bind. now rewrite H.
Qed.

Lemma update_lastindex_cache current_t dt self :
  let self' := fst (update_lastindex current_t dt self) in
  _spikes_changed self' = _spikes_changed self
  /\ _previous_dt self' = _previous_dt self
  /\ _spike_time self' = _spike_time self
  /\ _neuron_index self' = _neuron_index self.
Proof.
  rewrite update_lastindex_eq. cbn [fst].
  destruct (_spikes_changed self) eqn:E; [|now rewrite E].
  destruct (negb (len (in_the_past (_spike_time self) current_t dt) =? 0));
    cbn; now rewrite E.
Qed.

Lemma bins_check_due_iff self dt :
  bins_check_due self dt = true <->
  _spikes_changed self = true \/ _previous_dt self <> Some dt.
Proof.
  unfold bins_check_due. rewrite orb_true_iff.
  destruct (_previous_dt self) as [d|].
  - rewrite negb_true_iff. split.
    + intros [H|H]; [right | now left].
      intro E. injection E as ->. now rewrite Qceqb_refl in H.
    + intros [H|H]; [now right | left].
      destruct (Qceqb dt d) eqn:E; [|reflexivity].
      apply Qceqb_eq in E. congruence.
  - split; [intros _; right; discriminate | now left].
Qed.

(** ** C5: the dirty flag and the last checked [dt] *)

Lemma construction_dirty N indices times period sorted g :
  SpikeGeneratorGroup N indices times period sorted = Return g ->
  _spikes_changed g = true.
Proof.
  intro H.
  destruct (N_valid N && args_valid indices times period (Qtruncate N)) eqn:V.
  - apply andb_prop in V as [V1 V2].
    rewrite (SpikeGeneratorGroup_valid _ _ _ _ sorted V1 V2) in H.
    now inversion H.
  - destruct (SpikeGeneratorGroup_invalid _ _ _ _ sorted V) as [e E].
    congruence.
Qed.

Lemma set_spikes_dirty indices times period sorted self :
  snd (set_spikes indices times period sorted self) = Return tt ->
  _spikes_changed (fst (set_spikes indices times period sorted self)) = true.
Proof.
  intro H. destruct (args_valid indices times period (N self)) eqn:V.
  - now rewrite (set_spikes_valid _ _ _ sorted _ V).
  - destruct (set_spikes_invalid _ _ _ sorted _ V) as (e & E & _).
    rewrite E in H. discriminate.
Qed.

(** [before_run] after the period checks, when the check of the bins is
    due. *)
Lemma before_run_bins_due current_t dt self :
  check_period dt self = (self, Return tt) ->
  _spikes_changed self = true \/ _previous_dt self <> Some dt ->
  before_run current_t dt self =
  if spikes_collide (timebins (_spike_time self) dt) (_neuron_index self)
  then (fst (update_lastindex current_t dt self),
        Raise (ValueError multiple_spikes_per_step))
  else (set__spikes_changed false
          (set__previous_dt (Some dt)
             (fst (update_lastindex current_t dt self))),
        Return tt).
Proof.
  intros P D. rewrite (before_run_period_ok _ _ _ P), check_bins_eq.
  destruct (update_lastindex_cache current_t dt self) as (C & Pd & T & I).
  assert (Due : bins_check_due (fst (update_lastindex current_t dt self)) dt
                = true).
  { apply bins_check_due_iff. now rewrite C, Pd. }
  now rewrite Due, T, I.
Qed.

Lemma before_run_bins_skipped current_t dt self :
  check_period dt self = (self, Return tt) ->
  _spikes_changed self = false ->
  _previous_dt self = Some dt ->
  before_run current_t dt self = (self, Return tt).
Proof.
  intros P D Pd.
  rewrite (before_run_period_ok _ _ _ P), update_lastindex_eq, D.
  cbn [fst]. rewrite check_bins_eq. unfold bins_check_due.
  now rewrite D, Pd, Qceqb_refl.
Qed.

Lemma before_run_cleared current_t dt self :
  _spikes_changed self = true ->
  _spikes_changed (fst (before_run current_t dt self)) = false ->
  snd (before_run current_t dt self) = Return tt
  /\ spikes_collide (timebins (_spike_time self) dt) (_neuron_index self)
     = false
  /\ _previous_dt (fst (before_run current_t dt self)) = Some dt.
Proof.
  intros D C.
  destruct (check_period_cases dt self) as [P|(e & P & _)].
  - rewrite (before_run_bins_due _ _ _ P (or_introl D)) in *.
    destruct (update_lastindex_cache current_t dt self) as (C' & _).
    destruct (spikes_collide _ _); [|now repeat split].
    cbn [fst] in C. congruence.
  - rewrite (before_run_period_raise _ _ _ _ P) in C. cbn in C. congruence.
Qed.

(** C5.  [_spikes_changed] is true after every construction and after
    every successful [set_spikes].  At run start, once the period checks
    have passed, the check of the time bins runs whenever the flag is set
    or [dt] is not the [_previous_dt] of the last successful check: if no
    collision is found, [before_run] returns with the flag cleared and
    [_previous_dt] equal to [dt]; if one is found, it raises and leaves both
    as they were.  When the flag is clear and [dt] is the last checked one,
    the check is skipped and both stay as they are.  Hence a set flag is
    cleared by [before_run] only when it returns after a pass of the check
    at [dt] that found no collision. *)
Theorem C5_dirty_flag_protocol :
  (forall N indices times period sorted g,
      SpikeGeneratorGroup N indices times period sorted = Return g ->
      _spikes_changed g = true)
  /\ (forall indices times period sorted self,
         snd (set_spikes indices times period sorted self) = Return tt ->
         _spikes_changed (fst (set_spikes indices times period sorted self))
         = true)
  /\ (forall current_t dt self,
         check_period dt self = (self, Return tt) ->
         _spikes_changed self = true \/ _previous_dt self <> Some dt ->
         spikes_collide (timebins (_spike_time self) dt) (_neuron_index self)
         = false ->
         snd (before_run current_t dt self) = Return tt
         /\ _spikes_changed (fst (before_run current_t dt self)) = false
         /\ _previous_dt (fst (before_run current_t dt self)) = Some dt)
  /\ (forall current_t dt self,
         check_period dt self = (self, Return tt) ->
         _spikes_changed self = true \/ _previous_dt self <> Some dt ->
         spikes_collide (timebins (_spike_time self) dt) (_neuron_index self)
         = true ->
         snd (before_run current_t dt self)
         = Raise (ValueError multiple_spikes_per_step)
         /\ _spikes_changed (fst (before_run current_t dt self))
            = _spikes_changed self
         /\ _previous_dt (fst (before_run current_t dt self))
            = _previous_dt self)
  /\ (forall current_t dt self,
         check_period dt self = (self, Return tt) ->
         _spikes_changed self = false ->
         _previous_dt self = Some dt ->
         before_run current_t dt self = (self, Return tt))
  /\ (forall current_t dt self,
         _spikes_changed self = true ->
         _spikes_changed (fst (before_run current_t dt self)) = false ->
         snd (before_run current_t dt self) = Return tt
         /\ spikes_collide (timebins (_spike_time self) dt)
              (_neuron_index self) = false
         /\ _previous_dt (fst (before_run current_t dt self)) = Some dt).
Proof.
  split; [exact construction_dirty|].
  split; [exact set_spikes_dirty|].
  split; [|split; [|split; [exact before_run_bins_skipped
                           |exact before_run_cleared]]].
  - intros current_t dt self P D C.
    rewrite (before_run_bins_due _ _ _ P D), C. now repeat split.
  - intros current_t dt self P D C.
    rewrite (before_run_bins_due _ _ _ P D), C. cbn [fst snd].
    destruct (update_lastindex_cache current_t dt self) as (-> & -> & _).
    now repeat split.
Qed.

Lemma C5_dirty_flag_protocol_witness :
  snd (before_run (of_Z 0) (of_Z 1) (constructed 1 [0] [of_Z 0] Inf))
  = Return tt
  /\ _spikes_changed
       (fst (before_run (of_Z 0) (of_Z 1) (constructed 1 [0] [of_Z 0] Inf)))
     = false
  /\ _previous_dt
       (fst (before_run (of_Z 0) (of_Z 1) (constructed 1 [0] [of_Z 0] Inf)))
     = Some (of_Z 1).
Proof.
  apply (proj1 (proj2 (proj2 C5_dirty_flag_protocol))).
  - reflexivity.
  - left. reflexivity.
  - reflexivity.
Defined.

(** ** The states a group can be in *)

Lemma canonical_length indices times sorted :
  length indices = length times ->
  length (fst (canonical indices times sorted))
  = length (snd (canonical indices times sorted)).
Proof.
  unfold canonical, take. destruct sorted; cbn [negb fst snd]; [easy|].
  intros _. now rewrite !length_map.
Qed.

Lemma args_valid_length indices times period N :
  args_valid indices times period N = true -> length indices = length times.
Proof.
  unfold args_valid. intro H.
  repeat (apply andb_prop in H; destruct H as [H ?]).
  apply Z.eqb_eq in H. unfold len in H. lia.
Qed.

Lemma before_run_lastindex current_t dt self :
  check_period dt self = (self, Return tt) ->
  _lastindex (fst (before_run current_t dt self))
  = _lastindex (fst (update_lastindex current_t dt self))
  /\ log (fst (before_run current_t dt self))
     = log (fst (update_lastindex current_t dt self))
  /\ spike_time (fst (before_run current_t dt self)) = spike_time self
  /\ neuron_index (fst (before_run current_t dt self)) = neuron_index self
  /\ _spike_time (fst (before_run current_t dt self)) = _spike_time self
  /\ _neuron_index (fst (before_run current_t dt self)) = _neuron_index self.
Proof.
  intro P. rewrite (before_run_period_ok _ _ _ P), check_bins_eq.
  assert (U : spike_time (fst (update_lastindex current_t dt self))
              = spike_time self
              /\ neuron_index (fst (update_lastindex current_t dt self))
                 = neuron_index self
              /\ _spike_time (fst (update_lastindex current_t dt self))
                 = _spike_time self
              /\ _neuron_index (fst (update_lastindex current_t dt self))
                 = _neuron_index self).
  { rewrite update_lastindex_eq. cbn [fst].
    destruct (_spikes_changed self); [|easy].
    now destruct (negb _). }
  destruct U as (U1 & U2 & U3 & U4).
  destruct (bins_check_due _ dt); [|easy].
  destruct (spikes_collide _ _); cbn [fst]; easy.
Qed.

Lemma in_the_past_nil current_t dt : in_the_past [] current_t dt = [].
Proof. reflexivity. Qed.

Lemma reachable_consistent g : reachable g -> consistent g.
Proof.
  induction 1 as [N indices times period sorted g H
                 |indices times period sorted g R IH
                 |current_t dt g R IH
                 |c g R IH B].
  - destruct (N_valid N && args_valid indices times period (Qtruncate N))
      eqn:V.
    + apply andb_prop in V as [V1 V2].
      rewrite (SpikeGeneratorGroup_valid _ _ _ _ sorted V1 V2) in H.
      inversion H; subst. unfold consistent, constructed; cbn.
      repeat split; try discriminate.
      apply canonical_length. eapply args_valid_length; eauto.
    + destruct (SpikeGeneratorGroup_invalid _ _ _ _ sorted V) as [e E].
      congruence.
  - destruct (args_valid indices times period (N g)) eqn:V.
    + rewrite (set_spikes_valid _ _ _ sorted _ V). cbn [fst].
      unfold consistent, replaced; cbn.
      repeat split; try discriminate.
      apply canonical_length. eapply args_valid_length; eauto.
    + destruct (set_spikes_invalid _ _ _ sorted _ V) as (e & -> & _).
      exact IH.
  - destruct (check_period_cases dt g) as [P|(e & P & _)].
    + destruct IH as (I1 & I2 & I3 & I4).
      destruct (before_run_lastindex current_t dt g P)
        as (L & _ & S1 & S2 & S3 & S4).
      unfold consistent. rewrite L, S1, S2, S3, S4.
      repeat split; try assumption.
      intros C E. rewrite update_lastindex_eq. cbn [fst].
      rewrite E, in_the_past_nil. cbn [len length Z.of_nat Z.eqb negb].
      destruct (_spikes_changed g) eqn:D; [reflexivity|]. now apply I4.
    + now rewrite (before_run_period_raise _ _ _ _ P).
  - destruct IH as (I1 & I2 & I3 & I4).
    unfold consistent; cbn. repeat split; try assumption.
    intros C E. specialize (I4 C E). rewrite I1, E in B.
    unfold len in B. cbn in B. lia.
Qed.

(** ** C10: the empty schedule *)

(** C10.  When a group whose schedule is empty starts a run, at any time
    and with any [dt]: no warning about ignored spikes is logged; if the
    period checks pass (as they do for an infinite period), [before_run]
    returns and the cursor [_lastindex] is 0; [before_run] raises exactly
    the error the period checks raise, an error of the period alignment
    kind, with the object untouched (for instance "period smaller than dt"
    when the period is below [dt]); and it raises nothing else, so never
    for a collision. *)
Theorem C10_empty_schedule current_t dt self :
  reachable self ->
  _spike_time self = [] ->
  log (fst (before_run current_t dt self)) = log self
  /\ (check_period dt self = (self, Return tt) ->
      snd (before_run current_t dt self) = Return tt
      /\ _lastindex (fst (before_run current_t dt self)) = 0)
  /\ (period self = Inf ->
      snd (before_run current_t dt self) = Return tt
      /\ _lastindex (fst (before_run current_t dt self)) = 0)
  /\ (forall e, check_period dt self = (self, Raise e) ->
                before_run current_t dt self = (self, Raise e)
                /\ kind_of e = PeriodAlignmentError)
  /\ (forall p, period self = Fin p -> (p < dt)%Qc ->
                before_run current_t dt self
                = (self, Raise (ValueError period_smaller_than_dt)))
  /\ (forall e, snd (before_run current_t dt self) = Raise e ->
                check_period dt self = (self, Raise e)).
Proof.
  intros R E. destruct (reachable_consistent _ R) as (_ & _ & _ & I4).
  assert (Ok : check_period dt self = (self, Return tt) ->
               log (fst (before_run current_t dt self)) = log self
               /\ snd (before_run current_t dt self) = Return tt
               /\ _lastindex (fst (before_run current_t dt self)) = 0).
  { intro P.
    destruct (before_run_lastindex current_t dt self P) as (L & Lg & _).
    rewrite L, Lg. rewrite (before_run_period_ok _ _ _ P), check_bins_eq.
    destruct (update_lastindex_cache current_t dt self) as (_ & _ & -> & _).
    rewrite update_lastindex_eq. cbn [fst].
    rewrite E, in_the_past_nil. cbn [len length Z.of_nat Z.eqb negb].
    assert (NC : forall ids, spikes_collide (timebins [] dt) ids = false)
      by reflexivity.
    rewrite NC.
    split; [now destruct (_spikes_changed self)|]. split.
    - now destruct (bins_check_due _ dt).
    - destruct (_spikes_changed self) eqn:D; [reflexivity | now apply I4]. }
  assert (Bad : forall e, check_period dt self = (self, Raise e) ->
                          kind_of e = PeriodAlignmentError).
  { intros e P. destruct (check_period_cases dt self) as [P'|(e' & P' & K)];
      congruence. }
  split; [|split; [|split; [|split; [|split]]]].
  - destruct (check_period_cases dt self) as [P|(e & P & _)].
    + now apply Ok.
    + now rewrite (before_run_period_raise _ _ _ _ P).
  - intro P. now apply Ok.
  - intro Hinf. apply Ok. unfold check_period. run_body. now rewrite Hinf.
  - intros e P. split; [now apply before_run_period_raise | now apply Bad].
  - intros p Hp Hlt. apply before_run_period_raise.
    unfold check_period. run_body. rewrite Hp.
    apply Qcltb_lt in Hlt. now rewrite Hlt.
  - intros e H. destruct (check_period_cases dt self) as [P|(e' & P & _)].
    + destruct (Ok P) as (_ & H' & _). congruence.
    + rewrite (before_run_period_raise _ _ _ _ P) in H. cbn in H. congruence.
Qed.

Lemma C10_empty_schedule_witness :
  _lastindex
    (fst (set_spikes [] [] Inf false
            (fst (before_run (of_Z 10) (of_Z 1)
                    (constructed 1 [0] [of_Z 2] Inf))))) = 1
  /\ snd (before_run (of_Z 10) (of_Z 1)
            (fst (set_spikes [] [] Inf false
                    (fst (before_run (of_Z 10) (of_Z 1)
                            (constructed 1 [0] [of_Z 2] Inf))))))
     = Return tt
  /\ _lastindex
       (fst (before_run (of_Z 10) (of_Z 1)
               (fst (set_spikes [] [] Inf false
                       (fst (before_run (of_Z 10) (of_Z 1)
                               (constructed 1 [0] [of_Z 2] Inf)))))))
     = 0.
Proof.
  split; [reflexivity|].
  apply (proj1 (proj2
           (C10_empty_schedule (of_Z 10) (of_Z 1)
              (fst (set_spikes [] [] Inf false
                      (fst (before_run (of_Z 10) (of_Z 1)
                              (constructed 1 [0] [of_Z 2] Inf)))))
              (reach_set_spikes [] [] Inf false _
                 (reach_before_run (of_Z 10) (of_Z 1) _
                    (reach_new (of_Z 1) [0] [of_Z 2] Inf false _ eq_refl)))
              eq_refl))).
  reflexivity.
Defined.

(** ** Arithmetic of the time bins *)

Section Bins.

Local Open Scope Q_scope.

(** The operations of [Qc] are those of [Q] up to [==]. *)
Lemma this_plus (x y : Qc) : this (x + y)%Qc == this x + this y.
Proof. unfold Qcplus, Q2Qc; cbn [this]. apply Qred_correct. Qed.

Lemma this_mult (x y : Qc) : this (x * y)%Qc == this x * this y.
Proof. unfold Qcmult, Q2Qc; cbn [this]. apply Qred_correct. Qed.

Lemma this_div (x y : Qc) : this (x / y)%Qc == this x / this y.
Proof.
  unfold Qcdiv, Qcmult, Qcinv, Q2Qc; cbn [this].
  now rewrite !Qred_correct.
Qed.

Lemma this_of_Z (z : Z) : this (of_Z z) == inject_Z z.
Proof. unfold of_Z, Q2Qc; cbn [this]. apply Qred_correct. Qed.

Lemma this_milli : this milli == 1 # 1000.
Proof. reflexivity. Qed.

(** The shifted time over [dt], in [Q]. *)
Lemma shifted_Q (t dt : Qc) :
  this ((t + milli * dt) / dt)%Qc == (this t + (1 # 1000) * this dt) / this dt.
Proof. now rewrite this_div, this_plus, this_mult, this_milli. Qed.

Lemma shifted_eq (t dt : Qc) :
  0 < this dt ->
  this ((t + milli * dt) / dt)%Qc == this t / this dt + (1 # 1000).
Proof.
  intro H. rewrite shifted_Q. field. intro E. rewrite E in H.
  now apply Qlt_irrefl in H.
Qed.

Lemma Qfloor_unique (x : Q) (k : Z) :
  inject_Z k <= x -> x < inject_Z (k + 1) -> Qfloor x = k.
Proof.
  intros Hlo Hhi. apply Z.le_antisymm.
  - assert (H : inject_Z (Qfloor x) < inject_Z (k + 1))
      by (eapply Qle_lt_trans; [apply Qfloor_le | exact Hhi]).
    rewrite <- Zlt_Qlt in H. lia.
  - rewrite <- (Qfloor_Z k). now apply Qfloor_resp_le.
Qed.

Lemma Qtruncate_nonneg (x : Q) : 0 <= x -> Qtruncate x = Qfloor x.
Proof.
  destruct x as [n d]. unfold Qtruncate, Qfloor, Qle; cbn.
  intro H. apply Z.quot_div_nonneg; lia.
Qed.

Lemma Qfloor_nonneg (x : Q) : 0 <= x -> (0 <= Qfloor x)%Z.
Proof.
  intro H. change 0%Z with (Qfloor 0). now apply Qfloor_resp_le.
Qed.

Lemma shifted_nonneg (t dt : Qc) :
  0 <= this t -> 0 < this dt -> 0 <= this ((t + milli * dt) / dt)%Qc.
Proof.
  intros Ht Hdt. rewrite shifted_eq by exact Hdt.
  apply Qle_trans with (this t / this dt + 0).
  - rewrite Qplus_0_r. apply Qle_shift_div_l; [exact Hdt|].
    now rewrite Qmult_0_l.
  - apply Qplus_le_r. discriminate.
Qed.

(** [timestep] is monotone in the time. *)
Lemma timestep_mono (t1 t2 dt : Qc) :
  0 < this dt -> this t1 <= this t2 ->
  (timestep t1 dt <= timestep t2 dt)%Z.
Proof.
  intros Hdt H. unfold timestep. apply Qfloor_resp_le.
  rewrite (shifted_eq t1 dt Hdt), (shifted_eq t2 dt Hdt).
  apply Qplus_le_l. apply Qle_shift_div_l; [exact Hdt|].
  setoid_replace (this t1 / this dt * this dt) with (this t1); [exact H|].
  field. intro E. rewrite E in Hdt. now apply Qlt_irrefl in Hdt.
Qed.

(** The time step of an exact multiple [k * dt] is [k]. *)
Lemma timestep_multiple (k : Z) (dt : Qc) :
  0 < this dt -> timestep (of_Z k * dt)%Qc dt = k.
Proof.
  intro Hdt. unfold timestep.
  assert (E : this ((of_Z k * dt + milli * dt) / dt)%Qc
              == inject_Z k + (1 # 1000)).
  { rewrite shifted_eq by exact Hdt. rewrite this_mult, this_of_Z.
    field. intro E. rewrite E in Hdt. now apply Qlt_irrefl in Hdt. }
  rewrite E. apply Qfloor_unique.
  - rewrite <- (Qplus_0_r (inject_Z k)) at 1. apply Qplus_le_r. discriminate.
  - rewrite inject_Z_plus. apply Qplus_lt_r. reflexivity.
Qed.

(** Within the range of [int32] the conversion agrees with [timestep]. *)
Lemma as_int32_timestep (t dt : Qc) :
  0 <= this t -> 0 < this dt ->
  (timestep t dt <= int32_max)%Z ->
  as_int32 (this ((t + milli * dt) / dt)%Qc) = timestep t dt.
Proof.
  intros Ht Hdt Hmax. unfold as_int32.
  rewrite Qtruncate_nonneg by now apply shifted_nonneg.
  fold (timestep t dt).
  assert (H0 : (0 <= timestep t dt)%Z)
    by (apply Qfloor_nonneg; now apply shifted_nonneg).
  replace (int32_min <=? timestep t dt)%Z with true
    by (symmetry; apply Z.leb_le; unfold int32_min; lia).
  replace (timestep t dt <=? int32_max)%Z with true
    by (symmetry; now apply Z.leb_le).
  reflexivity.
Qed.

End Bins.

(** ** C6: the bins of the collision check *)

Lemma below_int32 (x : Q) :
  (x < inject_Z (2 ^ 31))%Q -> Qfloor x <= int32_max.
Proof.
  intro H.
  assert (L : (inject_Z (Qfloor x) < inject_Z (2 ^ 31))%Q)
    by (eapply Qle_lt_trans; [apply Qfloor_le | exact H]).
  rewrite <- Zlt_Qlt in L. unfold int32_max. lia.
Qed.

(** The rounding of the float operations decides a bin also within the
    range of [int32], which is why the value of a bin is evaluated on
    [timebins_float] only: for the float nearest to 0.999 and [dt] of 1 the
    binary64 sum [t + 1e-3*dt] rounds to 1 and the bin is 1, where exact
    arithmetic on the same two numbers gives bin 0. *)
Lemma rounding_decides_bin :
  timebins_float [0x1.ff7ced916872bp-1%float] 1 = [1]
  /\ timebins [F64.to_Qc 0x1.ff7ced916872bp-1%float] (F64.to_Qc 1) = [0].
Proof. split; now vm_compute. Qed.

(** C6 does not hold of the code where a bin does not fit [int32].  For
    the spike times [2^31] s and [2^31 + 5] s of one neuron and [dt] of
    1 s, the quotient [(t + 1e-3*dt) / dt] has the floors [2^31] and
    [2^31 + 5], computed in binary64 as well as exactly; the conversion to
    [int32] puts both spikes in bin [-2^31], so the scan takes the two
    spikes, five time steps apart, for two spikes in one time step, and
    the run start raises. *)
Theorem C6_bin_overflows_int32 :
  Qfloor (F64.to_Q ((2147483648 + F64.milli * 1) / 1)%float) = 2 ^ 31
  /\ Qfloor (F64.to_Q ((2147483653 + F64.milli * 1) / 1)%float) = 2 ^ 31 + 5
  /\ timestep_float 2147483648 1 = 2 ^ 31
  /\ timestep_float 2147483653 1 = 2 ^ 31 + 5
  /\ timebins_float [2147483648; 2147483653]%float 1 = [- 2 ^ 31; - 2 ^ 31]
  /\ spikes_collide (timebins_float [2147483648; 2147483653]%float 1) [0; 0]
     = true
  /\ timebins [of_Z (2 ^ 31); of_Z (2 ^ 31 + 5)] (of_Z 1)
     = timebins_float [2147483648; 2147483653]%float 1
  /\ SpikeGeneratorGroup (of_Z 1) [0; 0] [of_Z (2 ^ 31); of_Z (2 ^ 31 + 5)]
       Inf false
     = Return (constructed 1 [0; 0] [of_Z (2 ^ 31); of_Z (2 ^ 31 + 5)] Inf)
  /\ snd (before_run (of_Z 0) (of_Z 1)
            (constructed 1 [0; 0] [of_Z (2 ^ 31); of_Z (2 ^ 31 + 5)] Inf))
     = Raise (ValueError multiple_spikes_per_step).
Proof.
  repeat split; now vm_compute.
Qed.

(** ** C2: the period checks *)

Lemma In_arange (k n : Z) : In k (arange n) <-> 0 <= k < n.
Proof.
  unfold arange. rewrite in_map_iff. split.
  - intros (i & <- & Hi). apply in_seq in Hi. lia.
  - intros H. exists (Z.to_nat k). split; [lia|]. apply in_seq. lia.
Qed.

Lemma check_period_Fin (p dt : Qc) (self : group) :
  period self = Fin p ->
  check_period dt self =
  if Qcltb p dt then (self, Raise (ValueError period_smaller_than_dt))
  else if Qcltb p thousand && negb (multiples_ok p dt)
       then (self, Raise (NotImplementedError period_not_multiple_of_dt))
       else (self, Return tt).
Proof.
  intro H. unfold check_period, multiples_ok. run_body.
  rewrite H. destruct (Qcltb p dt); [reflexivity|].
  destruct (Qcltb p thousand); [|reflexivity].
  cbn [andb]. now destruct (negb _).
Qed.

Lemma multiples_ok_iff (p dt : Qc) :
  multiples_ok p dt = true <->
  forall k, 0 <= k < Qtruncate (thousand / p)%Qc ->
            np_mod (timestep (of_Z k * p)%Qc dt) (timestep p dt) = 0.
Proof.
  unfold multiples_ok, np_all. rewrite forallb_forall. split.
  - intros H k Hk. apply Z.eqb_eq. apply H.
    apply (in_map (fun x => np_mod x (timestep p dt) =? 0) _
             (timestep (of_Z k * p)%Qc dt)).
    apply (in_map (fun x => timestep x dt) _ (of_Z k * p)%Qc).
    apply (in_map (fun k => (of_Z k * p)%Qc)). now apply In_arange.
  - intros H b Hb.
    apply in_map_iff in Hb as (x & <- & Hx).
    apply in_map_iff in Hx as (y & <- & Hy).
    apply in_map_iff in Hy as (k & <- & Hk).
    apply Z.eqb_eq, H. now apply In_arange.
Qed.

(** The rounding of the float division decides the number of samples: for
    the float nearest to 0.1, [int(1000. / period)] is 10000 in binary64,
    where the exact quotient of the same two numbers truncates to 9999.
    The number of samples is therefore evaluated on [check_period_float]. *)
Lemma rounding_decides_samples :
  F64.to_int (1000 / 0x1.999999999999ap-4)%float = 10000
  /\ Qtruncate (thousand / F64.to_Qc 0x1.999999999999ap-4%float)%Qc = 9999.
Proof. split; now vm_compute. Qed.

(** C2 does not hold of the code: the last multiple that fits into the
    1000 s is not sampled.  With a period of 300 s and [dt] of 125 s,
    [int(1000. / period)] is 3 and [np.arange(3) * period] holds 0, 300 and
    600, whose time steps 0, 2 and 4 are multiples of the time step 2 of
    the period, so the period checks pass and the run start returns; the
    multiple [3 * period = 900] lies below 1000 and its time step 7 leaves
    the remainder 1. *)
Theorem C2_last_multiple_not_sampled :
  F64.to_int (1000 / 300)%float = 3
  /\ map (fun k => (F64.of_int k * 300)%float) (arange 3)
     = [0; 300; 600]%float
  /\ check_period_float 300 125 = Return tt
  /\ (F64.of_int 3 * 300 <? 1000)%float = true
  /\ timestep_float (F64.of_int 3 * 300)%float 125 = 7
  /\ timestep_float 300 125 = 2
  /\ timestep_float (F64.of_int 3 * 300)%float 125 mod timestep_float 300 125
     = 1
  /\ SpikeGeneratorGroup (of_Z 1) [0] [of_Z 1] (Fin (of_Z 300)) false
     = Return (constructed 1 [0] [of_Z 1] (Fin (of_Z 300)))
  /\ check_period (of_Z 125) (constructed 1 [0] [of_Z 1] (Fin (of_Z 300)))
     = (constructed 1 [0] [of_Z 1] (Fin (of_Z 300)),
        check_period_float 300 125)
  /\ snd (before_run (of_Z 0) (of_Z 125)
            (constructed 1 [0] [of_Z 1] (Fin (of_Z 300))))
     = Return tt.
Proof.
  repeat split; now vm_compute.
Qed.

(** ** C3: the cursor at run start *)

Lemma first_not_past_spec (bins : list Z) (cur : Z) :
  (first_not_past bins cur <= length bins)%nat
  /\ (forall k, (k < first_not_past bins cur)%nat -> nth k bins 0 < cur)
  /\ ((first_not_past bins cur < length bins)%nat ->
      cur <= nth (first_not_past bins cur) bins 0).
Proof.
  induction bins as [|b bins (IH1 & IH2 & IH3)]; cbn [first_not_past length].
  - repeat split; intros; lia.
  - destruct (cur <=? b) eqn:E.
    + apply Z.leb_le in E. repeat split; intros; cbn [nth]; lia.
    + apply Z.leb_gt in E. repeat split.
      * lia.
      * intros [|k] Hk; cbn [nth]; [lia | apply IH2; lia].
      * intro H. cbn [nth]. apply IH3. lia.
Qed.

Lemma nonzero_from_In (i : nat) (a : list bool) (j : nat) :
  In j (nonzero_from i a) <-> (i <= j)%nat /\ nth (j - i) a false = true.
Proof.
  revert i. induction a as [|b a IH]; intro i; cbn [nonzero_from].
  - split; [intros [] | intros [_ H]]. now destruct (j - i)%nat.
  - assert (Tail : In j (nonzero_from (S i) a) <->
                   (i < j)%nat /\ nth (j - i) (b :: a) false = true).
    { rewrite IH. split; intros [H1 H2]; (split; [lia|]).
      - replace (j - i)%nat with (S (j - S i)) by lia. exact H2.
      - replace (j - i)%nat with (S (j - S i)) in H2 by lia. exact H2. }
    destruct b.
    + cbn [In]. rewrite Tail. split.
      * intros [<-|[H1 H2]]; [|split; [lia | exact H2]].
        split; [lia|]. now rewrite Nat.sub_diag.
      * intros [H1 H2]. destruct (Nat.eq_dec i j) as [|N]; [now left|].
        right. split; [lia | exact H2].
    + rewrite Tail. split; intros [H1 H2]; (split; [|exact H2]); [lia|].
      destruct (Nat.eq_dec i j) as [<-|N]; [|lia].
      now rewrite Nat.sub_diag in H2.
Qed.

Lemma nonzero_from_sorted (i : nat) (a : list bool) :
  StronglySorted lt (nonzero_from i a).
Proof.
  revert i. induction a as [|b a IH]; intro i; cbn [nonzero_from].
  - constructor.
  - destruct b; [|apply IH]. constructor; [apply IH|].
    apply Forall_forall. intros j Hj. apply nonzero_from_In in Hj. lia.
Qed.

Lemma last_sorted_max (l : list nat) (d : nat) :
  StronglySorted lt l -> l <> [] ->
  In (last l d) l /\ forall x, In x l -> (x <= last l d)%nat.
Proof.
  induction 1 as [|x l S IH F]; [congruence|]. intros _.
  destruct l as [|y l].
  - cbn. split; [now left|]. intros z [<-|[]]. lia.
  - destruct IH as [I M]; [congruence|].
    change (last (x :: y :: l) d) with (last (y :: l) d).
    split; [now right|]. intros z [<-|Hz]; [|now apply M].
    rewrite Forall_forall in F. specialize (F _ I). lia.
Qed.

Lemma nth_true_lt (a : list bool) (k : nat) :
  nth k a false = true -> (k < length a)%nat.
Proof.
  intro H. destruct (Nat.lt_ge_cases k (length a)) as [|G]; [assumption|].
  rewrite nth_overflow in H by exact G. discriminate.
Qed.

Lemma nth_map_lt {A B : Type} (f : A -> B) (l : list A) (d : A) (d' : B)
    (k : nat) :
  (k < length l)%nat -> nth k (map f l) d' = f (nth k l d).
Proof.
  revert k. induction l as [|x l IH]; intros k Hk; cbn [length] in Hk; [lia|].
  destruct k as [|k]; cbn [map nth]; [reflexivity | apply IH; lia].
Qed.

Lemma nth_past (bins : list Z) (cur : Z) (k : nat) :
  nth k (map (fun s => s <? cur) bins) false = true <->
  (k < length bins)%nat /\ nth k bins 0 < cur.
Proof.
  split.
  - intro H. pose proof (nth_true_lt _ _ H) as L. rewrite length_map in L.
    split; [exact L|].
    rewrite (nth_map_lt _ _ 0) in H by exact L. now apply Z.ltb_lt.
  - intros [L H]. rewrite (nth_map_lt _ _ 0) by exact L. now apply Z.ltb_lt.
Qed.

Lemma before_run_cursor current_t dt self :
  _spikes_changed self = true ->
  check_period dt self = (self, Return tt) ->
  _lastindex (fst (before_run current_t dt self))
  = cursor_at (_spike_time self) current_t dt.
Proof.
  intros D P. destruct (before_run_lastindex current_t dt self P) as [-> _].
  rewrite update_lastindex_eq, D. cbn [fst]. unfold cursor_at.
  now destruct (negb _).
Qed.

(** [cursor_at] is one past the last event lying in the past, or 0. *)
Lemma cursor_at_spec (times : list Qc) (current_t dt : Qc) :
  let bins := map (fun t => timestep t dt) times in
  let cur := timestep current_t dt in
  (cursor_at times current_t dt = 0
   /\ forall k, (k < length bins)%nat -> cur <= nth k bins 0)
  \/ (exists j, cursor_at times current_t dt = Z.of_nat j + 1
                /\ (j < length bins)%nat
                /\ nth j bins 0 < cur
                /\ forall k, (j < k < length bins)%nat ->
                             cur <= nth k bins 0).
Proof.
  intros bins cur. unfold cursor_at, in_the_past.
  fold bins. fold cur. unfold nonzero.
  set (a := map (fun s => s <? cur) bins).
  destruct (nonzero_from 0 a) as [|x l] eqn:E.
  - left. split; [reflexivity|]. intros k Hk.
    destruct (Z_lt_dec (nth k bins 0) cur) as [L|]; [|lia]. exfalso.
    assert (I : In k (nonzero_from 0 a)).
    { apply nonzero_from_In. split; [lia|]. rewrite Nat.sub_0_r.
      now apply nth_past. }
    now rewrite E in I.
  - right. rewrite <- E.
    assert (NE : nonzero_from 0 a <> []) by (rewrite E; congruence).
    destruct (last_sorted_max _ 0%nat (nonzero_from_sorted 0 a) NE) as [I M].
    exists (last (nonzero_from 0 a) 0%nat).
    replace (negb (len (nonzero_from 0 a) =? 0)) with true.
    2:{ symmetry. apply negb_true_iff. now apply len_nonzero. }
    split; [reflexivity|].
    apply nonzero_from_In in I as [_ I]. rewrite Nat.sub_0_r in I.
    apply nth_past in I as [I1 I2].
    split; [exact I1|]. split; [exact I2|].
    intros k [K1 K2].
    destruct (Z_lt_dec (nth k bins 0) cur) as [L|]; [|lia]. exfalso.
    assert (Ik : In k (nonzero_from 0 a)).
    { apply nonzero_from_In. split; [lia|]. rewrite Nat.sub_0_r.
      now apply nth_past. }
    apply M in Ik. lia.
Qed.

Lemma StronglySorted_nth {A : Type} (R : A -> A -> Prop) (l : list A) (d : A) :
  StronglySorted R l ->
  forall i j, (i < j < length l)%nat -> R (nth i l d) (nth j l d).
Proof.
  induction 1 as [|x l S IH F]; intros i j Hij; cbn [length] in Hij; [lia|].
  destruct j as [|j]; [lia|]. destruct i as [|i]; cbn [nth].
  - rewrite Forall_forall in F. apply F. apply nth_In. lia.
  - apply IH. lia.
Qed.

(** On a schedule sorted by time the two descriptions of the cursor
    agree. *)
Lemma cursor_at_first_not_past (times : list Qc) (current_t dt : Qc) :
  (0 < dt)%Qc ->
  StronglySorted Qcle times ->
  cursor_at times current_t dt
  = Z.of_nat (first_not_past (map (fun t => timestep t dt) times)
                (timestep current_t dt)).
Proof.
  intros Hdt Srt.
  set (bins := map (fun t => timestep t dt) times).
  set (cur := timestep current_t dt).
  assert (Mono : forall i j, (i <= j < length bins)%nat ->
                             nth i bins 0 <= nth j bins 0).
  { intros i j Hij. unfold bins in *. rewrite length_map in Hij.
    destruct (Nat.eq_dec i j) as [->|N]; [lia|].
    rewrite !(nth_map_lt _ _ (of_Z 0)) by lia.
    apply timestep_mono; [exact Hdt|].
    apply (StronglySorted_nth Qcle times (of_Z 0) Srt i j). lia. }
  destruct (first_not_past_spec bins cur) as (F1 & F2 & F3).
  pose proof (cursor_at_spec times current_t dt) as CS.
  cbv zeta in CS. fold bins in CS. fold cur in CS.
  destruct CS as [[-> C]|(j & -> & J1 & J2 & J3)].
  - destruct (first_not_past bins cur) as [|f] eqn:E; [reflexivity|].
    exfalso. specialize (F2 0%nat ltac:(lia)). specialize (C 0%nat ltac:(lia)).
    lia.
  - assert (L : (j < first_not_past bins cur)%nat).
    { destruct (Nat.lt_ge_cases j (first_not_past bins cur)) as [|G];
        [assumption|]. exfalso.
      assert (Hf : (first_not_past bins cur < length bins)%nat) by lia.
      specialize (F3 Hf).
      specialize (Mono (first_not_past bins cur) j ltac:(lia)). lia. }
    assert (U : (first_not_past bins cur <= S j)%nat).
    { destruct (Nat.lt_ge_cases (S j) (first_not_past bins cur)) as [G|];
        [|assumption]. exfalso.
      specialize (F2 (S j) G). specialize (J3 (S j) ltac:(lia)). lia. }
    lia.
Qed.

(** C3.  At every run start where the schedule is dirty (and the period
    checks let the run start go on), [_lastindex] is set to one past the
    last event whose bin is strictly smaller than the bin of the current
    time, or to 0 if no event lies in the past, so that it lies between 0
    and the number [M] of stored events; on a schedule whose times are in
    ascending order, as the stored schedule is, and with [dt > 0], this is
    the index of the first event whose bin is at least the bin of the
    current time ([M] if there is none). *)
Theorem C3_cursor (current_t dt : Qc) (self : group) :
  _spikes_changed self = true ->
  check_period dt self = (self, Return tt) ->
  let bins := map (fun t => timestep t dt) (_spike_time self) in
  let cur := timestep current_t dt in
  let cursor := _lastindex (fst (before_run current_t dt self)) in
  0 <= cursor <= len (_spike_time self)
  /\ ((cursor = 0 /\ forall k, (k < length bins)%nat -> cur <= nth k bins 0)
      \/ (exists j, cursor = Z.of_nat j + 1
                    /\ (j < length bins)%nat
                    /\ nth j bins 0 < cur
                    /\ forall k, (j < k < length bins)%nat ->
                                 cur <= nth k bins 0))
  /\ ((0 < dt)%Qc -> StronglySorted Qcle (_spike_time self) ->
      cursor = Z.of_nat (first_not_past bins cur)).
Proof.
  intros D P bins cur cursor.
  assert (E : cursor = cursor_at (_spike_time self) current_t dt)
    by now apply before_run_cursor.
  pose proof (cursor_at_spec (_spike_time self) current_t dt) as CS.
  cbv zeta in CS. fold bins in CS. fold cur in CS. rewrite <- E in CS.
  split; [|split].
  - assert (L : length bins = length (_spike_time self))
      by (unfold bins; now rewrite length_map).
    unfold len. destruct CS as [[-> _]|(j & -> & J & _)]; lia.
  - exact CS.
  - intros Hdt Srt. rewrite E. now apply cursor_at_first_not_past.
Qed.

Lemma C3_cursor_witness :
  _lastindex
    (fst (before_run (Q2Qc (10 # 1000)) (Q2Qc (1 # 1000))
            (constructed 1 [0] [Q2Qc (2 # 1000)] Inf)))
  = 1.
Proof.
  apply (proj2 (proj2 (C3_cursor (Q2Qc (10 # 1000)) (Q2Qc (1 # 1000))
                         (constructed 1 [0] [Q2Qc (2 # 1000)] Inf)
                         eq_refl eq_refl))).
  - reflexivity.
  - repeat constructor.
Defined.

(** ** The order of the schedule *)

Lemma event_leb_le (a b : event) : event_leb a b = true <-> event_le a b.
Proof.
  unfold event_leb, event_le.
  rewrite orb_true_iff, andb_true_iff, Qcltb_lt, Qceqb_eq, Z.leb_le.
  reflexivity.
Qed.

Lemma event_le_refl (a : event) : event_le a a.
Proof. right. split; [reflexivity | lia]. Qed.

Lemma event_le_total (a b : event) : event_le a b \/ event_le b a.
Proof.
  unfold event_le.
  destruct (Qc_dec (snd a) (snd b)) as [[L|L]|E].
  - left; now left.
  - right; now left.
  - destruct (Z_le_gt_dec (fst a) (fst b)).
    + left; right. now split.
    + right; right. split; [now symmetry | lia].
Qed.

Lemma event_le_trans (a b c : event) :
  event_le a b -> event_le b c -> event_le a c.
Proof.
  unfold event_le. intros [L1|[E1 I1]] [L2|[E2 I2]].
  - left. eapply Qclt_trans; eauto.
  - left. now rewrite <- E2.
  - left. now rewrite E1.
  - right. split; [congruence | lia].
Qed.

Lemma event_le_antisym (a b : event) : event_le a b -> event_le b a -> a = b.
Proof.
  unfold event_le. destruct a as [i t], b as [j u]; cbn [fst snd].
  intros [L1|[E1 I1]] [L2|[E2 I2]].
  - exfalso. exact (Qclt_not_le _ _ L1 (Qclt_le_weak _ _ L2)).
  - exfalso. subst. exact (Qclt_not_eq _ _ L1 eq_refl).
  - exfalso. subst. exact (Qclt_not_eq _ _ L2 eq_refl).
  - f_equal; [lia | assumption].
Qed.

Lemma lex_leb_event (indices : list Z) (times : list Qc) (p q : nat) :
  lex_leb times indices p q
  = event_leb (event_at indices times p) (event_at indices times q).
Proof. reflexivity. Qed.

(** *** The insertion sort on positions *)

Section Insertion.

Variables (indices : list Z) (times : list Qc).

Let le := lex_leb times indices.

Lemma insert_pos_perm (p : nat) (l : list nat) :
  Permutation (insert_pos le p l) (p :: l).
Proof.
  induction l as [|q l IH]; cbn [insert_pos]; [reflexivity|].
  destruct (le p q); [reflexivity|].
  rewrite IH. apply perm_swap.
Qed.

Lemma insert_pos_stable (p : nat) (l : list nat) :
  StronglySorted (stable_le indices times) l ->
  Forall (fun q => (p < q)%nat) l ->
  StronglySorted (stable_le indices times) (insert_pos le p l).
Proof.
  induction 1 as [|q l S IH F]; intro G; cbn [insert_pos].
  - repeat constructor.
  - inversion G as [|? ? Gq Gl]; subst.
    destruct (le p q) eqn:E; unfold le in E; rewrite lex_leb_event in E.
    + apply event_leb_le in E.
      constructor; [now constructor|].
      constructor; [split; [exact E | intros _; exact Gq]|].
      rewrite Forall_forall in *. intros r Hr. split.
      * eapply event_le_trans; [exact E|]. apply (F r Hr).
      * intros _. now apply Gl.
    + constructor; [now apply IH|].
      eapply Permutation_Forall; [symmetry; apply insert_pos_perm|].
      constructor; [|exact F].
      assert (N : ~ event_le (event_at indices times p)
                      (event_at indices times q)).
      { intro L. apply event_leb_le in L. congruence. }
      split.
      * destruct (event_le_total (event_at indices times q)
                    (event_at indices times p)); [assumption | contradiction].
      * intro L. contradiction.
Qed.

End Insertion.

Lemma lexsort_from_spec (indices : list Z) (times : list Qc) (s n : nat) :
  let I := fold_right (insert_pos (lex_leb times indices)) [] (seq s n) in
  Permutation I (seq s n)
  /\ StronglySorted (stable_le indices times) I.
Proof.
  revert s. induction n as [|n IH]; intro s; cbn [seq fold_right].
  - split; constructor.
  - destruct (IH (S s)) as [P S']. split.
    + rewrite insert_pos_perm. now constructor.
    + apply insert_pos_stable; [exact S'|].
      eapply Permutation_Forall; [symmetry; exact P|].
      apply Forall_forall. intros q Hq. apply in_seq in Hq. lia.
Qed.

(** [np.lexsort((indices, times))] is a permutation of the positions,
    ascending by (time, index) and stable. *)
Lemma lexsort_spec (indices : list Z) (times : list Qc) :
  Permutation (lexsort indices times) (seq 0 (length times))
  /\ StronglySorted (stable_le indices times) (lexsort indices times).
Proof. apply lexsort_from_spec. Qed.

(** *** The arrays after the sort *)

Lemma combine_take (indices : list Z) (times : list Qc) (I : list nat) :
  combine (take 0 indices I) (take (of_Z 0) times I)
  = map (event_at indices times) I.
Proof.
  unfold take. induction I as [|p I IH]; cbn [map combine]; [reflexivity|].
  now rewrite IH.
Qed.

Lemma map_event_at_seq (indices : list Z) (times : list Qc) :
  length indices = length times ->
  map (event_at indices times) (seq 0 (length times)) = combine indices times.
Proof.
  intro L.
  assert (G : forall (ids : list Z) (ts : list Qc) pre_i pre_t,
             length ids = length ts ->
             length pre_i = length pre_t ->
             map (event_at (pre_i ++ ids) (pre_t ++ ts))
               (seq (length pre_t) (length ts))
             = combine ids ts).
  { induction ids as [|i ids IH]; intros [|t ts] pre_i pre_t H1 H2;
      cbn [length] in H1; try discriminate; [reflexivity|].
    cbn [length seq map combine]. f_equal.
    - unfold event_at. rewrite <- H2 at 1.
      now rewrite !nth_middle.
    - specialize (IH ts (pre_i ++ [i]) (pre_t ++ [t])).
      rewrite <- !app_assoc, !length_app in IH. cbn [app length] in IH.
      rewrite !Nat.add_1_r in IH. apply IH; lia. }
  exact (G indices times [] [] L eq_refl).
Qed.

Lemma map_fst_combine {A B : Type} (a : list A) (b : list B) :
  length a = length b -> map fst (combine a b) = a.
Proof.
  revert b. induction a as [|x a IH]; intros [|y b] H; cbn in *;
    try discriminate; [reflexivity|]. f_equal. apply IH. lia.
Qed.

Lemma map_snd_combine {A B : Type} (a : list A) (b : list B) :
  length a = length b -> map snd (combine a b) = b.
Proof.
  revert b. induction a as [|x a IH]; intros [|y b] H; cbn in *;
    try discriminate; [reflexivity|]. f_equal. apply IH. lia.
Qed.

Lemma combine_fst_snd {A B : Type} (l : list (A * B)) :
  combine (map fst l) (map snd l) = l.
Proof.
  induction l as [|[x y] l IH]; cbn; [reflexivity | now rewrite IH].
Qed.

Lemma StronglySorted_map {A B : Type} (R : A -> A -> Prop)
    (R' : B -> B -> Prop) (f : A -> B) (l : list A) :
  (forall x y, R x y -> R' (f x) (f y)) ->
  StronglySorted R l -> StronglySorted R' (map f l).
Proof.
  intros H. induction 1 as [|x l S IH F]; cbn [map]; constructor;
    [exact IH|].
  apply Forall_map. eapply Forall_impl; [|exact F]. intros y. apply H.
Qed.

(** The schedule that [_check_args] stores for unsorted input: the input
    events rearranged into ascending order. *)
Lemma canonical_sorts (indices : list Z) (times : list Qc) :
  length indices = length times ->
  let stored := combine (fst (canonical indices times false))
                        (snd (canonical indices times false)) in
  Permutation stored (combine indices times)
  /\ StronglySorted event_le stored.
Proof.
  intro L. unfold canonical. cbn [negb fst snd]. rewrite combine_take.
  destruct (lexsort_spec indices times) as [P S]. split.
  - rewrite <- (map_event_at_seq indices times L). now apply Permutation_map.
  - eapply StronglySorted_map; [|exact S]. now intros p q [H _].
Qed.

(** A list of events has one ascending arrangement only. *)
Lemma sorted_perm_unique (l1 l2 : list event) :
  StronglySorted event_le l1 -> StronglySorted event_le l2 ->
  Permutation l1 l2 -> l1 = l2.
Proof.
  intro S1. revert l2.
  induction S1 as [|a l1 S1 IH F1]; intros l2 S2 P.
  - apply Permutation_nil in P. now subst.
  - destruct S2 as [|b l2 S2 F2].
    { apply Permutation_sym, Permutation_nil in P. discriminate. }
    assert (E : a = b).
    { rewrite Forall_forall in F1, F2.
      assert (Ia : In a (b :: l2))
        by (eapply Permutation_in; [exact P | now left]).
      assert (Ib : In b (a :: l1))
        by (eapply Permutation_in; [symmetry; exact P | now left]).
      apply event_le_antisym.
      - destruct Ib as [<-|Ib]; [apply event_le_refl | now apply F1].
      - destruct Ia as [<-|Ia]; [apply event_le_refl | now apply F2]. }
    subst b. f_equal. apply IH; [exact S2|].
    eapply Permutation_cons_inv; exact P.
Qed.

(** ** C4: the stored schedule is sorted *)

Lemma canonical_sorted_input (indices : list Z) (times : list Qc) :
  length indices = length times ->
  sorted_input indices times (fst (canonical indices times false))
    (snd (canonical indices times false)).
Proof.
  intro L. destruct (canonical_sorts indices times L) as [P S].
  destruct (lexsort_spec indices times) as [PI SI].
  assert (LI : length (lexsort indices times) = length times)
    by (rewrite (Permutation_length PI); apply length_seq).
  unfold sorted_input. repeat split; try assumption.
  - unfold canonical, take. cbn [negb fst]. now rewrite length_map.
  - unfold canonical, take. cbn [negb snd]. now rewrite length_map.
  - exists (lexsort indices times). now repeat split.
Qed.

(** C4.  Whenever the construction or [set_spikes] accepts an input with
    [sorted = False], the schedule it stores is the input events sorted in
    ascending order of time and, among equal times, of neuron index, by a
    stable sort; so the stored schedule is ascending by (time, index). *)
Theorem C4_stored_schedule_sorted :
  (forall N indices times period g,
      SpikeGeneratorGroup N indices times period false = Return g ->
      exists ids ts, stores g ids ts /\ sorted_input indices times ids ts)
  /\ (forall indices times period self,
         snd (set_spikes indices times period false self) = Return tt ->
         exists ids ts,
           stores (fst (set_spikes indices times period false self)) ids ts
           /\ sorted_input indices times ids ts).
Proof.
  split.
  - intros N indices times period g H.
    destruct (N_valid N && args_valid indices times period (Qtruncate N))
      eqn:V.
    + apply andb_prop in V as [V1 V2].
      rewrite (SpikeGeneratorGroup_valid _ _ _ _ false V1 V2) in H.
      inversion H; subst.
      exists (fst (canonical indices times false)),
             (snd (canonical indices times false)).
      split; [now repeat split|].
      apply canonical_sorted_input. eapply args_valid_length; eauto.
    + destruct (SpikeGeneratorGroup_invalid _ _ _ _ false V) as [e E].
      congruence.
  - intros indices times period self H.
    destruct (args_valid indices times period (N self)) eqn:V.
    + rewrite (set_spikes_valid _ _ _ false _ V). cbn [fst].
      exists (fst (canonical indices times false)),
             (snd (canonical indices times false)).
      split; [now repeat split|].
      apply canonical_sorted_input. eapply args_valid_length; eauto.
    + destruct (set_spikes_invalid _ _ _ false _ V) as (e & E & _).
      rewrite E in H. discriminate.
Qed.

Lemma C4_stored_schedule_sorted_witness :
  exists ids ts,
    stores (constructed 2 [0; 1; 0]
              [Q2Qc (1 # 10); Q2Qc (2 # 10); Q2Qc (3 # 10)] Inf) ids ts
    /\ sorted_input [0; 1; 0] [Q2Qc (3 # 10); Q2Qc (2 # 10); Q2Qc (1 # 10)]
         ids ts.
Proof.
  apply (proj1 C4_stored_schedule_sorted (of_Z 2) [0; 1; 0]
           [Q2Qc (3 # 10); Q2Qc (2 # 10); Q2Qc (1 # 10)] Inf).
  reflexivity.
Defined.

(** ** C8: sorted and unsorted replacement agree *)

Lemma args_valid_perm (X X' : list event) (period : quantity) (N : Z) :
  Permutation X' X ->
  args_valid (map fst X') (map snd X') period N
  = args_valid (map fst X) (map snd X) period N.
Proof.
  intro P. unfold args_valid, len. rewrite !length_map.
  rewrite (Permutation_length P).
  rewrite (np_max_perm _ _ (Permutation_map snd P)).
  rewrite (np_min_perm _ _ (Permutation_map snd P)).
  rewrite (np_maxZ_perm _ _ (Permutation_map fst P)).
  rewrite (np_minZ_perm _ _ (Permutation_map fst P)).
  reflexivity.
Qed.

Lemma canonical_unique (X' Y : list event) :
  Permutation X' Y -> StronglySorted event_le Y ->
  canonical (map fst X') (map snd X') false
  = canonical (map fst Y) (map snd Y) true.
Proof.
  intros P S.
  assert (L : length (map fst X') = length (map snd X'))
    by now rewrite !length_map.
  destruct (canonical_sorted_input _ _ L) as (L1 & L2 & P' & S' & _).
  rewrite combine_fst_snd in P'.
  assert (E : combine (fst (canonical (map fst X') (map snd X') false))
                (snd (canonical (map fst X') (map snd X') false)) = Y).
  { apply sorted_perm_unique; [exact S' | exact S |].
    now rewrite P'. }
  destruct (canonical (map fst X') (map snd X') false) as [ids ts].
  cbn [fst snd] in *. unfold canonical. cbn [negb]. rewrite <- E.
  rewrite map_fst_combine, map_snd_combine by congruence. reflexivity.
Qed.

(** C8.  For events [X], any rearrangement [X'] of them and their
    (time, index)-sorted form [Y]: [set_spikes] on [X'] with
    [sorted = False] and [set_spikes] on [Y] with [sorted = True] do the
    same, that is, both fail with the same error or both succeed and leave
    the very same object (the same [neuron_index], [spike_time] and
    [spike_number] arrays, period and flag). *)
Theorem C8_sorted_replace_agrees (X X' Y : list event) (period : quantity)
    (self : group) :
  Permutation X' X ->
  Permutation Y X ->
  StronglySorted event_le Y ->
  set_spikes (map fst X') (map snd X') period false self
  = set_spikes (map fst Y) (map snd Y) period true self.
Proof.
  intros P PY S.
  assert (PXY : Permutation X' Y) by (rewrite P; now symmetry).
  pose proof (args_valid_perm Y X' period (N self) PXY) as V.
  destruct (args_valid (map fst Y) (map snd Y) period (N self)) eqn:VY.
  - rewrite (set_spikes_valid _ _ _ false _ V).
    rewrite (set_spikes_valid _ _ _ true _ VY).
    now rewrite (canonical_unique X' Y PXY S).
  - unfold set_spikes, bind, get.
    unfold _check_args, bind, when, ret, raise, modify.
    unfold args_valid in V, VY.
    unfold len in *. rewrite !length_map in *.
    rewrite (Permutation_length PXY) in *.
    rewrite (np_max_perm _ _ (Permutation_map snd PXY)) in *.
    rewrite (np_min_perm _ _ (Permutation_map snd PXY)) in *.
    rewrite (np_maxZ_perm _ _ (Permutation_map fst PXY)) in *.
    rewrite (np_minZ_perm _ _ (Permutation_map fst PXY)) in *.
    destruct (Z.of_nat (length Y) =? Z.of_nat (length Y)); cbn [negb];
      [|reflexivity].
    destruct (qlt period (Fin (of_Z 0))); [reflexivity|].
    destruct (negb (Z.of_nat (length Y) =? 0)
              && qle period (Fin (np_max (map snd Y)))); [reflexivity|].
    destruct (negb (Z.of_nat (length Y) =? 0)
              && Qcltb (np_min (map snd Y)) (of_Z 0)); [reflexivity|].
    destruct (negb (Z.of_nat (length Y) =? 0)
              && ((np_minZ (map fst Y) <? 0)
                  || (np_maxZ (map fst Y) >=? N self))); [reflexivity|].
    discriminate.
Qed.

Lemma C8_sorted_replace_agrees_witness :
  set_spikes [0; 1] [Q2Qc (3 # 10); Q2Qc (1 # 10)] Inf false
    (constructed 2 [] [] Inf)
  = set_spikes [1; 0] [Q2Qc (1 # 10); Q2Qc (3 # 10)] Inf true
      (constructed 2 [] [] Inf).
Proof.
  apply (C8_sorted_replace_agrees
           [(0, Q2Qc (3 # 10)); (1, Q2Qc (1 # 10))]
           [(0, Q2Qc (3 # 10)); (1, Q2Qc (1 # 10))]
           [(1, Q2Qc (1 # 10)); (0, Q2Qc (3 # 10))]
           Inf (constructed 2 [] [] Inf)).
  - apply Permutation_refl.
  - apply perm_swap.
  - repeat constructor.
Defined.

(** ** C1: the scan of neighbouring spikes *)

(** What the scan finds: two neighbouring spikes with the same bin and the
    same neuron index. *)
Lemma spikes_collide_iff (bins indices : list Z) :
  spikes_collide bins indices = true <->
  exists k, (S k < length bins)%nat /\ (S k < length indices)%nat
            /\ nth k bins 0 = nth (S k) bins 0
            /\ nth k indices 0 = nth (S k) indices 0.
Proof.
  revert indices. induction bins as [|x bins IH]; intro indices.
  - split; [discriminate | intros (k & H & _); cbn in H; lia].
  - destruct bins as [|y bins].
    { split; [discriminate | intros (k & H & _); cbn in H; lia]. }
    destruct indices as [|i indices].
    { split; [discriminate | intros (k & _ & H & _); cbn in H; lia]. }
    destruct indices as [|j indices].
    { split; [discriminate | intros (k & _ & H & _); cbn in H; lia]. }
    specialize (IH (j :: indices)).
    change (spikes_collide (x :: y :: bins) (i :: j :: indices))
      with (((y - x =? 0) && (j - i =? 0))
            || spikes_collide (y :: bins) (j :: indices)).
    rewrite orb_true_iff, andb_true_iff, !Z.eqb_eq, IH. split.
    + intros [[H1 H2]|(k & K1 & K2 & K3 & K4)].
      * exists 0%nat. cbn [nth length]. repeat split; lia.
      * exists (S k). cbn [length] in *.
        repeat split; [lia | lia | exact K3 | exact K4].
    + intros ([|k] & K1 & K2 & K3 & K4).
      * left. cbn [nth] in K3, K4. lia.
      * right. exists k. cbn [length] in *.
        repeat split; [lia | lia | exact K3 | exact K4].
Qed.

(** C1 does not hold of the code: the scan looks at neighbouring spikes
    only.  The schedule with the neuron indices [0; 1; 0] at the times
    0.1 s, 0.2 s and 0.3 s is ascending by (time, index); with [dt] of 1 s
    the first and the third spike are spikes of neuron 0 in bin 0; no two
    neighbours have the same index, the scan finds nothing and
    [before_run] returns without raising. *)
Theorem C1_scan_misses_separated_spikes :
  StronglySorted event_le
    (combine [0; 1; 0] [Q2Qc (1 # 10); Q2Qc (2 # 10); Q2Qc (3 # 10)])
  /\ SpikeGeneratorGroup (of_Z 2) [0; 1; 0]
       [Q2Qc (1 # 10); Q2Qc (2 # 10); Q2Qc (3 # 10)] Inf false
     = Return (constructed 2 [0; 1; 0]
                 [Q2Qc (1 # 10); Q2Qc (2 # 10); Q2Qc (3 # 10)] Inf)
  /\ nth 0 [0; 1; 0] 0 = nth 2 [0; 1; 0] 0
  /\ timestep (Q2Qc (1 # 10)) (of_Z 1) = timestep (Q2Qc (3 # 10)) (of_Z 1)
  /\ timebins [Q2Qc (1 # 10); Q2Qc (2 # 10); Q2Qc (3 # 10)] (of_Z 1)
     = [0; 0; 0]
  /\ spikes_collide
       (timebins [Q2Qc (1 # 10); Q2Qc (2 # 10); Q2Qc (3 # 10)] (of_Z 1))
       [0; 1; 0] = false
  /\ snd (before_run (of_Z 0) (of_Z 1)
            (constructed 2 [0; 1; 0]
               [Q2Qc (1 # 10); Q2Qc (2 # 10); Q2Qc (3 # 10)] Inf))
     = Return tt.
Proof.
  split.
  - repeat constructor; now vm_compute.
  - repeat split; now vm_compute.
Qed.

(** * Further properties of the code *)

(** ** Construction and [set_spikes]: which inputs are accepted *)

Lemma N_valid_iff (N : Qc) :
  N_valid N = true <-> (of_Z 1 <= N)%Qc /\ of_Z (Qtruncate N) = N.
Proof.
  unfold N_valid. rewrite negb_true_iff, orb_false_iff, negb_false_iff.
  now rewrite Qcltb_ge, Qceqb_eq.
Qed.

Lemma SpikeGeneratorGroup_bad_N N indices times period sorted :
  N_valid N = false ->
  SpikeGeneratorGroup N indices times period sorted
  = Raise (TypeError N_not_integer_ge_1).
Proof.
  unfold N_valid. intro H. apply negb_false_iff in H.
  unfold SpikeGeneratorGroup, __init__body. run_body. now rewrite H.
Qed.

Lemma SpikeGeneratorGroup_bad_args N indices times period sorted :
  N_valid N = true ->
  args_valid indices times period (Qtruncate N) = false ->
  exists e, SpikeGeneratorGroup N indices times period sorted = Raise e
            /\ kind_of e = ArgumentError.
Proof.
  unfold N_valid. intros HN H. apply negb_true_iff in HN.
  unfold SpikeGeneratorGroup, __init__body. run_body. rewrite HN.
  destruct (_check_args_invalid _ _ _ _ sorted
              (set__spikes_changed true
                 (set__spike_time [] (set__neuron_index [] blank))) H)
    as (e & -> & K).
  now exists e.
Qed.

(** X1.  The construction raises the [TypeError] about [N] exactly when [N]
    is below 1 or not an integer, whatever the arrays and the period are:
    [N] is checked before them. *)
Theorem X1_construction_TypeError N indices times period sorted :
  SpikeGeneratorGroup N indices times period sorted
  = Raise (TypeError N_not_integer_ge_1)
  <-> (N < of_Z 1)%Qc \/ of_Z (Qtruncate N) <> N.
Proof.
  split.
  - intro H. destruct (N_valid N) eqn:V.
    + exfalso.
      destruct (args_valid indices times period (Qtruncate N)) eqn:A.
      * rewrite (SpikeGeneratorGroup_valid _ _ _ _ sorted V A) in H.
        discriminate.
      * destruct (SpikeGeneratorGroup_bad_args _ _ _ _ sorted V A)
          as (e & E & K).
        rewrite E in H. injection H as ->. discriminate.
    + destruct (Qclt_le_dec N (of_Z 1)) as [L|L]; [now left|].
      right. intro E. assert (N_valid N = true) by now apply N_valid_iff.
      congruence.
  - intro H. apply SpikeGeneratorGroup_bad_N.
    destruct (N_valid N) eqn:V; [|reflexivity].
    apply N_valid_iff in V as [V1 V2]. destruct H as [H|H].
    + exfalso. exact (Qcle_not_lt _ _ V1 H).
    + contradiction.
Qed.

Lemma args_valid_iff indices times period N :
  args_valid indices times period N = true
  <-> ~ fails_validation indices times period N.
Proof.
  split.
  - intros V F. apply fails_validation_invalid in F. congruence.
  - intro F. destruct (args_valid indices times period N) eqn:V;
      [reflexivity|].
    exfalso. apply F. now apply invalid_fails_validation.
Qed.

(** X2.  The construction returns a group exactly when [N] is an integer
    at least 1 and the arrays and the period have none of the five defects
    of [fails_validation]; [set_spikes] returns exactly when they have none
    for the [N] of the group. *)
Theorem X2_acceptance :
  (forall N indices times period sorted,
      (exists g, SpikeGeneratorGroup N indices times period sorted = Return g)
      <-> (of_Z 1 <= N)%Qc /\ of_Z (Qtruncate N) = N
          /\ ~ fails_validation indices times period (Qtruncate N))
  /\ (forall indices times period sorted self,
         snd (set_spikes indices times period sorted self) = Return tt
         <-> ~ fails_validation indices times period (N self)).
Proof.
  split.
  - intros N indices times period sorted. split.
    + intros [g H]. destruct (N_valid N) eqn:V.
      * apply N_valid_iff in V as [V1 V2]. repeat split; try assumption.
        apply args_valid_iff.
        destruct (args_valid indices times period (Qtruncate N)) eqn:A;
          [reflexivity|].
        assert (V : N_valid N = true) by now apply N_valid_iff.
        destruct (SpikeGeneratorGroup_bad_args _ _ _ _ sorted V A)
          as (e & E & _).
        congruence.
      * rewrite (SpikeGeneratorGroup_bad_N _ _ _ _ sorted V) in H.
        discriminate.
    + intros (V1 & V2 & F).
      assert (V : N_valid N = true) by now apply N_valid_iff.
      apply args_valid_iff in F.
      rewrite (SpikeGeneratorGroup_valid _ _ _ _ sorted V F). now eexists.
  - intros indices times period sorted self. rewrite <- args_valid_iff.
    split.
    + intro H. destruct (args_valid indices times period (N self)) eqn:V;
        [reflexivity|].
      destruct (set_spikes_invalid _ _ _ sorted _ V) as (e & E & _).
      rewrite E in H. discriminate.
    + intro V. now rewrite (set_spikes_valid _ _ _ sorted _ V).
Qed.

(** ** [_check_args]: which error is raised *)

Lemma period_max_test (times : list Qc) (period : quantity) :
  negb (len times =? 0) && qle period (Fin (np_max times)) = true
  <-> exists t, In t times /\ qle period (Fin t) = true.
Proof.
  rewrite andb_true_iff, negb_true_iff, len_nonzero. split.
  - intros [NE H]. exists (np_max times). split; [now apply np_max_spec|].
    exact H.
  - intros (t & Ht & H).
    assert (NE : times <> []) by (eapply In_nonempty; eauto).
    split; [exact NE|]. destruct period as [p|]; [|discriminate].
    cbn [qle] in *. apply Qcleb_le. apply Qcleb_le in H.
    eapply Qcle_trans; [exact H|]. now apply np_max_spec.
Qed.

Lemma negative_time_test (times : list Qc) :
  negb (len times =? 0) && Qcltb (np_min times) (of_Z 0) = true
  <-> exists t, In t times /\ (t < of_Z 0)%Qc.
Proof.
  rewrite andb_true_iff, negb_true_iff, len_nonzero, Qcltb_lt. split.
  - intros [NE H]. exists (np_min times). split; [now apply np_min_spec|].
    exact H.
  - intros (t & Ht & H).
    assert (NE : times <> []) by (eapply In_nonempty; eauto).
    split; [exact NE|].
    eapply Qcle_lt_trans; [|exact H]. now apply np_min_spec.
Qed.

Lemma indices_test (indices : list Z) (N : Z) :
  negb (len indices =? 0)
  && ((np_minZ indices <? 0) || (np_maxZ indices >=? N)) = true
  <-> exists i, In i indices /\ ~ (0 <= i < N).
Proof.
  rewrite andb_true_iff, negb_true_iff, len_nonzero, orb_true_iff.
  rewrite Z.ltb_lt, Z.geb_le. split.
  - intros [NE [H|H]].
    + exists (np_minZ indices). split; [now apply np_minZ_spec | lia].
    + exists (np_maxZ indices). split; [now apply np_maxZ_spec | lia].
  - intros (i & Hi & H).
    assert (NE : indices <> []) by (eapply In_nonempty; eauto).
    split; [exact NE|].
    destruct (np_minZ_spec _ NE) as [_ Hlo], (np_maxZ_spec _ NE) as [_ Hhi].
    specialize (Hlo _ Hi). specialize (Hhi _ Hi). lia.
Qed.

Lemma test_false (b : bool) (P : Prop) : (b = true <-> P) -> ~ P -> b = false.
Proof. intros H N. destruct b; [|reflexivity]. exfalso. now apply N, H. Qed.

(** X3.  [_check_args] reports the first defect in the order of its
    checks, with the object untouched: differing lengths first; then a
    negative period; then a period not above some spike time (also when
    some spike time is negative); then a negative spike time; and an index
    outside [0, N) only when everything else is in order. *)
Theorem X3_first_error indices times period N sorted self :
  (length indices <> length times ->
   _check_args indices times period N sorted self
   = (self, Raise (ValueError length_mismatch)))
  /\ (length indices = length times ->
      qlt period (Fin (of_Z 0)) = true ->
      _check_args indices times period N sorted self
      = (self, Raise (ValueError period_negative)))
  /\ (length indices = length times ->
      qlt period (Fin (of_Z 0)) = false ->
      (exists t, In t times /\ qle period (Fin t) = true) ->
      _check_args indices times period N sorted self
      = (self, Raise (ValueError period_not_greater_than_max)))
  /\ (length indices = length times ->
      qlt period (Fin (of_Z 0)) = false ->
      ~ (exists t, In t times /\ qle period (Fin t) = true) ->
      (exists t, In t times /\ (t < of_Z 0)%Qc) ->
      _check_args indices times period N sorted self
      = (self, Raise (ValueError negative_spike_times)))
  /\ (length indices = length times ->
      qlt period (Fin (of_Z 0)) = false ->
      ~ (exists t, In t times /\ qle period (Fin t) = true) ->
      ~ (exists t, In t times /\ (t < of_Z 0)%Qc) ->
      (exists i, In i indices /\ ~ (0 <= i < N)) ->
      _check_args indices times period N sorted self
      = (self, Raise (ValueError indices_out_of_interval))).
Proof.
  assert (Len : length indices = length times ->
                (len indices =? len times) = true).
  { intro L. apply Z.eqb_eq. unfold len. now rewrite L. }
  repeat split.
  - intro L. unfold _check_args. run_body.
    replace (len indices =? len times) with false; [reflexivity|].
    symmetry. apply Z.eqb_neq. unfold len. lia.
  - intros L P. unfold _check_args. run_body.
    now rewrite (Len L), P.
  - intros L P M. unfold _check_args. run_body.
    rewrite (Len L), P. cbn [negb].
    now rewrite (proj2 (period_max_test times period) M).
  - intros L P M T. unfold _check_args. run_body.
    rewrite (Len L), P. cbn [negb].
    rewrite (test_false _ _ (period_max_test times period) M).
    now rewrite (proj2 (negative_time_test times) T).
  - intros L P M T I. unfold _check_args. run_body.
    rewrite (Len L), P. cbn [negb].
    rewrite (test_false _ _ (period_max_test times period) M).
    rewrite (test_false _ _ (negative_time_test times) T).
    now rewrite (proj2 (indices_test indices N) I).
Qed.

Lemma X3_first_error_witness :
  _check_args [0; 0] [of_Z 2; of_Z (-1)] (Fin (of_Z 1)) 1 false blank
  = (blank, Raise (ValueError period_not_greater_than_max))
  /\ _check_args [0; 5] [of_Z 2; of_Z (-1)] Inf 1 false blank
     = (blank, Raise (ValueError negative_spike_times)).
Proof.
  split.
  - apply (proj1 (proj2 (proj2
             (X3_first_error [0; 0] [of_Z 2; of_Z (-1)] (Fin (of_Z 1)) 1
                false blank)))).
    + reflexivity.
    + reflexivity.
    + exists (of_Z 2). split; [now left | reflexivity].
  - apply (proj1 (proj2 (proj2 (proj2
             (X3_first_error [0; 5] [of_Z 2; of_Z (-1)] Inf 1
                false blank))))).
    + reflexivity.
    + reflexivity.
    + intros (t & _ & H). discriminate.
    + exists (of_Z (-1)). split; [right; now left | reflexivity].
Defined.

(** ** [set_spikes]: what it replaces and what it leaves *)

(** X4.  A replacement discards the schedule before it: when [set_spikes]
    accepts its input, the result is the same whether or not another
    [set_spikes] call (accepted or rejected) came just before. *)
Theorem X4_replacement_discards_prior iA tA pA sA iB tB pB sB self :
  snd (set_spikes iB tB pB sB self) = Return tt ->
  set_spikes iB tB pB sB (fst (set_spikes iA tA pA sA self))
  = set_spikes iB tB pB sB self.
Proof.
  intro H.
  assert (VB : args_valid iB tB pB (N self) = true).
  { destruct (args_valid iB tB pB (N self)) eqn:V; [reflexivity|].
    destruct (set_spikes_invalid _ _ _ sB _ V) as (e & E & _).
    rewrite E in H. discriminate. }
  destruct (args_valid iA tA pA (N self)) eqn:VA.
  - rewrite (set_spikes_valid _ _ _ sA _ VA). cbn [fst].
    rewrite (set_spikes_valid _ _ _ sB self VB).
    now rewrite (set_spikes_valid iB tB pB sB (replaced self _ _ pA) VB).
  - now destruct (set_spikes_invalid _ _ _ sA _ VA) as (e & -> & _).
Qed.

Lemma X4_replacement_discards_prior_witness :
  set_spikes [0] [of_Z 3] Inf false
    (fst (set_spikes [0; 0] [of_Z 1; of_Z 2] Inf false
            (constructed 1 [] [] Inf)))
  = set_spikes [0] [of_Z 3] Inf false (constructed 1 [] [] Inf).
Proof.
  apply (X4_replacement_discards_prior [0; 0] [of_Z 1; of_Z 2] Inf false
           [0] [of_Z 3] Inf false (constructed 1 [] [] Inf)).
  reflexivity.
Defined.

Lemma canonical_lengths indices times sorted :
  length indices = length times ->
  length (fst (canonical indices times sorted)) = length indices
  /\ length (snd (canonical indices times sorted)) = length indices.
Proof.
  intro L. destruct sorted.
  - cbn. now split.
  - destruct (canonical_sorted_input indices times L) as (L1 & L2 & _).
    split; congruence.
Qed.

(** X5.  [set_spikes] never touches [N], the cursor [_lastindex], the last
    checked [dt] and the log, whether it returns or raises; when it returns,
    the three arrays have the length of the input, [spike_number] counts
    from 0, and the period is the one given. *)
Theorem X5_set_spikes_frame indices times per sorted self :
  N (fst (set_spikes indices times per sorted self)) = N self
  /\ _lastindex (fst (set_spikes indices times per sorted self))
     = _lastindex self
  /\ _previous_dt (fst (set_spikes indices times per sorted self))
     = _previous_dt self
  /\ log (fst (set_spikes indices times per sorted self)) = log self
  /\ (snd (set_spikes indices times per sorted self) = Return tt ->
      length (neuron_index (fst (set_spikes indices times per sorted self)))
      = length indices
      /\ length (spike_time (fst (set_spikes indices times per sorted self)))
         = length indices
      /\ spike_number (fst (set_spikes indices times per sorted self))
         = arange (len indices)
      /\ period (fst (set_spikes indices times per sorted self))
         = per).
Proof.
  destruct (args_valid indices times per (N self)) eqn:V.
  - rewrite (set_spikes_valid _ _ _ sorted _ V). cbn [fst snd].
    unfold replaced; cbn.
    destruct (canonical_lengths indices times sorted
                (args_valid_length _ _ _ _ V)) as [L1 L2].
    repeat split; try assumption. unfold len. now rewrite L1.
  - destruct (set_spikes_invalid _ _ _ sorted _ V) as (e & -> & _).
    cbn [fst snd]. repeat split; discriminate.
Qed.

Lemma X5_set_spikes_frame_witness :
  length (neuron_index
            (fst (set_spikes [0; 0] [of_Z 2; of_Z 1] Inf false
                    (constructed 1 [0] [of_Z 7] Inf)))) = 2%nat
  /\ spike_number
       (fst (set_spikes [0; 0] [of_Z 2; of_Z 1] Inf false
               (constructed 1 [0] [of_Z 7] Inf))) = [0; 1].
Proof.
  destruct (proj2 (proj2 (proj2 (proj2
              (X5_set_spikes_frame [0; 0] [of_Z 2; of_Z 1] Inf false
                 (constructed 1 [0] [of_Z 7] Inf))))) eq_refl)
    as (H1 & _ & H3 & _).
  split; [exact H1 | exact H3].
Defined.

(** ** The schedule of a group is well formed *)

Lemma args_valid_parts indices times period N :
  args_valid indices times period N = true ->
  length indices = length times
  /\ qlt period (Fin (of_Z 0)) = false
  /\ ~ (exists t, In t times /\ qle period (Fin t) = true)
  /\ ~ (exists t, In t times /\ (t < of_Z 0)%Qc)
  /\ ~ (exists i, In i indices /\ ~ (0 <= i < N)).
Proof.
  intro V. pose proof (args_valid_length _ _ _ _ V) as L.
  unfold args_valid in V.
  repeat (apply andb_prop in V; destruct V as [V ?]).
  repeat match goal with H : negb _ = true |- _ =>
    apply negb_true_iff in H end.
  repeat split; try assumption.
  - intro E. apply period_max_test in E. congruence.
  - intro E. apply negative_time_test in E. congruence.
  - intro E. apply indices_test in E. congruence.
Qed.

Lemma take_In {A : Type} (d : A) (a : list A) (I : list nat) (x : A) :
  Forall (fun p => (p < length a)%nat) I -> In x (take d a I) -> In x a.
Proof.
  unfold take. intros F H. apply in_map_iff in H as (p & <- & Hp).
  rewrite Forall_forall in F. apply nth_In. now apply F.
Qed.

Lemma lexsort_bound (indices : list Z) (times : list Qc) :
  Forall (fun p => (p < length times)%nat) (lexsort indices times).
Proof.
  destruct (lexsort_spec indices times) as [P _].
  eapply Permutation_Forall; [symmetry; exact P|].
  apply Forall_forall. intros p Hp. apply in_seq in Hp. lia.
Qed.

Lemma canonical_In indices times sorted :
  length indices = length times ->
  (forall i, In i (fst (canonical indices times sorted)) -> In i indices)
  /\ (forall t, In t (snd (canonical indices times sorted)) -> In t times).
Proof.
  intro L. destruct sorted; [now split|]. cbn [canonical negb fst snd].
  split; intros x H; eapply take_In; try exact H.
  - rewrite L. apply lexsort_bound.
  - apply lexsort_bound.
Qed.

Lemma Qtruncate_ge_1 (N : Qc) : (of_Z 1 <= N)%Qc -> 1 <= Qtruncate N.
Proof.
  intro H. change (1 <= this N)%Q in H.
  rewrite Qtruncate_nonneg.
  - change 1 with (Qfloor 1). now apply Qfloor_resp_le.
  - eapply Qle_trans; [|exact H]. discriminate.
Qed.

(** The arrays accepted by [_check_args] make a well-formed schedule. *)
Lemma accepted_valid_schedule indices times per n sorted g :
  1 <= n ->
  args_valid indices times per n = true ->
  stores g (fst (canonical indices times sorted))
    (snd (canonical indices times sorted)) ->
  N g = n ->
  period g = per ->
  valid_schedule g.
Proof.
  intros HN V (S1 & S2 & S3 & S4 & S5) EN EP.
  destruct (args_valid_parts _ _ _ _ V) as (L & P & M & T & I).
  destruct (canonical_In indices times sorted L) as [Ci Ct].
  destruct (canonical_lengths indices times sorted L) as [L1 L2].
  unfold valid_schedule. rewrite EN, EP, S1, S2, S3, S4, S5.
  repeat split; try assumption; try lia.
  - apply Forall_forall. intros i Hi. apply Ci in Hi.
    destruct (Z_le_dec 0 i) as [A|A], (Z_lt_dec i n) as [B|B];
      try lia; exfalso; apply I; exists i; (split; [exact Hi | lia]).
  - apply Forall_forall. intros t Ht. apply Ct in Ht.
    destruct (Qclt_le_dec t (of_Z 0)) as [A|A]; [|exact A].
    exfalso. apply T. now exists t.
  - match goal with E : per = Fin _ |- _ => rewrite E in P end.
    cbn [qlt] in P. now apply Qcltb_ge.
  - apply Forall_forall. intros t Ht. apply Ct in Ht.
    match goal with E : per = Fin ?q |- _ =>
      destruct (Qclt_le_dec t q) as [A|A]; [exact A|];
      exfalso; apply M; exists t; split; [exact Ht|]; rewrite E
    end.
    cbn [qle]. now apply Qcleb_le.
  - unfold len. now rewrite L1, L2.
Qed.

Lemma before_run_frame current_t dt self :
  N (fst (before_run current_t dt self)) = N self
  /\ period (fst (before_run current_t dt self)) = period self
  /\ spike_number (fst (before_run current_t dt self)) = spike_number self
  /\ neuron_index (fst (before_run current_t dt self)) = neuron_index self
  /\ spike_time (fst (before_run current_t dt self)) = spike_time self
  /\ _neuron_index (fst (before_run current_t dt self)) = _neuron_index self
  /\ _spike_time (fst (before_run current_t dt self)) = _spike_time self.
Proof.
  destruct (check_period_cases dt self) as [P|(e & P & _)].
  - rewrite (before_run_period_ok _ _ _ P), check_bins_eq.
    rewrite update_lastindex_eq. cbn [fst].
    destruct (_spikes_changed self);
      [destruct (negb _)|];
      destruct (bins_check_due _ dt); try destruct (spikes_collide _ _);
      cbn; now repeat split.
  - rewrite (before_run_period_raise _ _ _ _ P). now repeat split.
Qed.

(** X6.  Every group that construction, [set_spikes], [before_run] and
    the advancing cursor can produce holds a well-formed schedule: [N] is at
    least 1, every stored index lies in [0, N), every stored time is at
    least 0 and below a finite period, the arrays have one length and are
    numbered from 0, and the copies in the Python object are the stored
    arrays. *)
Theorem X6_schedule_well_formed g : reachable g -> valid_schedule g.
Proof.
  induction 1 as [N indices times period sorted g H
                 |indices times period sorted g R IH
                 |current_t dt g R IH
                 |c g R IH B].
  - destruct (N_valid N) eqn:VN.
    2:{ rewrite (SpikeGeneratorGroup_bad_N _ _ _ _ sorted VN) in H.
        discriminate. }
    destruct (args_valid indices times period (Qtruncate N)) eqn:V.
    2:{ destruct (SpikeGeneratorGroup_bad_args _ _ _ _ sorted VN V)
          as (e & E & _). congruence. }
    rewrite (SpikeGeneratorGroup_valid _ _ _ _ sorted VN V) in H.
    inversion H; subst.
    eapply accepted_valid_schedule; try exact V; try reflexivity.
    + apply Qtruncate_ge_1. now apply N_valid_iff in VN.
    + now repeat split.
  - destruct (args_valid indices times period (N g)) eqn:V.
    + rewrite (set_spikes_valid _ _ _ sorted _ V). cbn [fst].
      eapply accepted_valid_schedule; try exact V; try reflexivity.
      * apply IH.
      * now repeat split.
    + now destruct (set_spikes_invalid _ _ _ sorted _ V) as (e & -> & _).
  - destruct (before_run_frame current_t dt g)
      as (F1 & F2 & F3 & F4 & F5 & F6 & F7).
    unfold valid_schedule. now rewrite F1, F2, F3, F4, F5, F6, F7.
  - exact IH.
Qed.

Lemma X6_schedule_well_formed_witness :
  valid_schedule
    (fst (before_run (of_Z 0) (of_Z 1)
            (fst (set_spikes [0; 1] [of_Z 3; of_Z 2] (Fin (of_Z 10)) false
                    (constructed 2 [] [] Inf))))).
Proof.
  apply X6_schedule_well_formed.
  apply reach_before_run, reach_set_spikes.
  apply (reach_new (of_Z 2) [] [] Inf false). reflexivity.
Defined.

(** X7.  [before_run] never changes the schedule: [N], the period and the
    arrays [spike_number], [neuron_index] and [spike_time] (with their
    copies) are the same after it, whether it returns or raises. *)
Theorem X7_before_run_keeps_schedule current_t dt self :
  N (fst (before_run current_t dt self)) = N self
  /\ period (fst (before_run current_t dt self)) = period self
  /\ spike_number (fst (before_run current_t dt self)) = spike_number self
  /\ neuron_index (fst (before_run current_t dt self)) = neuron_index self
  /\ spike_time (fst (before_run current_t dt self)) = spike_time self
  /\ _neuron_index (fst (before_run current_t dt self)) = _neuron_index self
  /\ _spike_time (fst (before_run current_t dt self)) = _spike_time self.
Proof.
  exact (before_run_frame current_t dt self).
Qed.

(** ** [before_run]: the flag, repeated runs and failures *)

(** X8.  In every group that construction, [set_spikes], [before_run] and
    the advancing cursor can produce, a clear flag [_spikes_changed] means
    that the stored schedule has passed the check of the time bins at the
    recorded [_previous_dt]. *)
Theorem X8_clean_means_checked g :
  reachable g ->
  _spikes_changed g = false ->
  exists d, _previous_dt g = Some d
            /\ spikes_collide (timebins (_spike_time g) d) (_neuron_index g)
               = false.
Proof.
  induction 1 as [N indices times period sorted g H
                 |indices times period sorted g R IH
                 |current_t dt g R IH
                 |c g R IH B]; intro C.
  - rewrite (construction_dirty _ _ _ _ _ _ H) in C. discriminate.
  - destruct (args_valid indices times period (N g)) eqn:V.
    + rewrite (set_spikes_valid _ _ _ sorted _ V) in C. discriminate.
    + destruct (set_spikes_invalid _ _ _ sorted _ V) as (e & E & _).
      rewrite E in *. now apply IH.
  - destruct (check_period_cases dt g) as [P|(e & P & _)].
    2:{ rewrite (before_run_period_raise _ _ _ _ P) in *. now apply IH. }
    destruct (before_run_frame current_t dt g) as (_ & _ & _ & _ & _ & -> & ->).
    destruct (_spikes_changed g) eqn:D.
    + rewrite (before_run_bins_due _ _ _ P (or_introl D)) in *.
      destruct (update_lastindex_cache current_t dt g) as (C' & _).
      destruct (spikes_collide (timebins (_spike_time g) dt) (_neuron_index g))
        eqn:K.
      * cbn [fst] in C. congruence.
      * exists dt. now split.
    + destruct (IH eq_refl) as (d & Pd & K).
      destruct (Qc_eq_dec dt d) as [->|Nd].
      * rewrite (before_run_bins_skipped _ _ _ P D Pd). now exists d.
      * assert (Due : _spikes_changed g = true \/ _previous_dt g <> Some dt)
          by (right; congruence).
        rewrite (before_run_bins_due _ _ _ P Due) in *.
        destruct (update_lastindex_cache current_t dt g) as (_ & Pd' & _).
        destruct (spikes_collide (timebins (_spike_time g) dt)
                    (_neuron_index g)) eqn:K'.
        -- cbn [fst]. rewrite Pd'. now exists d.
        -- exists dt. now split.
  - now apply IH.
Qed.

Lemma X8_clean_means_checked_witness :
  exists d,
    _previous_dt
      (fst (before_run (of_Z 0) (of_Z 1) (constructed 1 [0] [of_Z 2] Inf)))
    = Some d
    /\ spikes_collide
         (timebins
            (_spike_time
               (fst (before_run (of_Z 0) (of_Z 1)
                       (constructed 1 [0] [of_Z 2] Inf)))) d)
         (_neuron_index
            (fst (before_run (of_Z 0) (of_Z 1)
                    (constructed 1 [0] [of_Z 2] Inf))))
       = false.
Proof.
  apply X8_clean_means_checked.
  - apply reach_before_run.
    apply (reach_new (of_Z 1) [0] [of_Z 2] Inf false). reflexivity.
  - reflexivity.
Defined.

Lemma check_period_same_period dt g g' :
  period g' = period g ->
  check_period dt g = (g, Return tt) ->
  check_period dt g' = (g', Return tt).
Proof.
  intros E. unfold check_period. run_body. rewrite E.
  destruct (period g) as [p|]; [|reflexivity].
  destruct (Qcltb p dt); [discriminate|].
  destruct (Qcltb p thousand); [|reflexivity].
  match goal with |- context [negb ?b] => destruct b end;
    [reflexivity | discriminate].
Qed.

Lemma before_run_returned current_t dt self :
  snd (before_run current_t dt self) = Return tt ->
  check_period dt self = (self, Return tt)
  /\ _spikes_changed (fst (before_run current_t dt self)) = false
  /\ _previous_dt (fst (before_run current_t dt self)) = Some dt.
Proof.
  intro H. destruct (check_period_cases dt self) as [P|(e & P & _)].
  2:{ rewrite (before_run_period_raise _ _ _ _ P) in H. discriminate. }
  split; [exact P|].
  destruct (_spikes_changed self) eqn:D.
  - rewrite (before_run_bins_due _ _ _ P (or_introl D)) in *.
    destruct (spikes_collide _ _); [discriminate | now split].
  - destruct (_previous_dt self) as [d|] eqn:Pd.
    + destruct (Qc_eq_dec dt d) as [->|Nd].
      * rewrite (before_run_bins_skipped _ _ _ P D Pd). now split.
      * assert (Due : _spikes_changed self = true
                      \/ _previous_dt self <> Some dt)
          by (right; congruence).
        rewrite (before_run_bins_due _ _ _ P Due) in *.
        destruct (spikes_collide _ _); [discriminate | now split].
    + assert (Due : _spikes_changed self = true
                    \/ _previous_dt self <> Some dt)
        by (right; congruence).
      rewrite (before_run_bins_due _ _ _ P Due) in *.
      destruct (spikes_collide _ _); [discriminate | now split].
Qed.

(** X9.  Once [before_run] has returned for some [dt], a further run start
    with the same [dt] returns and changes nothing, at whatever time it
    starts: the cursor is not recomputed, no warning is logged and the time
    bins are not checked again until [set_spikes] is called or [dt]
    changes. *)
Theorem X9_repeated_run_start current_t current_t' dt self :
  snd (before_run current_t dt self) = Return tt ->
  before_run current_t' dt (fst (before_run current_t dt self))
  = (fst (before_run current_t dt self), Return tt).
Proof.
  intro H. destruct (before_run_returned _ _ _ H) as (P & C & Pd).
  apply before_run_bins_skipped; try assumption.
  apply (check_period_same_period dt self); [|exact P].
  apply before_run_frame.
Qed.

Lemma X9_repeated_run_start_witness :
  before_run (of_Z 9) (of_Z 1)
    (fst (before_run (of_Z 0) (of_Z 1)
            (constructed 1 [0; 0] [of_Z 2; of_Z 5] Inf)))
  = (fst (before_run (of_Z 0) (of_Z 1)
            (constructed 1 [0; 0] [of_Z 2; of_Z 5] Inf)),
     Return tt).
Proof.
  apply (X9_repeated_run_start (of_Z 0) (of_Z 9) (of_Z 1)
           (constructed 1 [0; 0] [of_Z 2; of_Z 5] Inf)).
  reflexivity.
Defined.

Lemma update_lastindex_dirty current_t dt self :
  _spikes_changed self = true ->
  _lastindex (fst (update_lastindex current_t dt self))
  = cursor_at (_spike_time self) current_t dt
  /\ log (fst (update_lastindex current_t dt self))
     = if negb (len (in_the_past (_spike_time self) current_t dt) =? 0)
       then log self ++ [ignored_spikes current_t]
       else log self.
Proof.
  intro D. rewrite update_lastindex_eq, D. cbn [fst]. unfold cursor_at.
  now destruct (negb _).
Qed.

(** X10.  [before_run] is not undone by a failure of its last check: when
    the schedule is dirty, the period checks pass and the time bins
    collide, the exception is raised after the cursor has been set for the
    current time and after the warning about ignored spikes, if any, has
    been logged; only the flag and the last checked [dt] stay as they
    were. *)
Theorem X10_collision_after_cursor current_t dt self :
  _spikes_changed self = true ->
  check_period dt self = (self, Return tt) ->
  spikes_collide (timebins (_spike_time self) dt) (_neuron_index self) = true ->
  snd (before_run current_t dt self)
  = Raise (ValueError multiple_spikes_per_step)
  /\ _lastindex (fst (before_run current_t dt self))
     = cursor_at (_spike_time self) current_t dt
  /\ log (fst (before_run current_t dt self))
     = (if negb (len (in_the_past (_spike_time self) current_t dt) =? 0)
        then log self ++ [ignored_spikes current_t]
        else log self)
  /\ _spikes_changed (fst (before_run current_t dt self)) = true
  /\ _previous_dt (fst (before_run current_t dt self)) = _previous_dt self.
Proof.
  intros D P K.
  rewrite (before_run_bins_due _ _ _ P (or_introl D)), K. cbn [fst snd].
  destruct (update_lastindex_dirty current_t dt self D) as [L G].
  destruct (update_lastindex_cache current_t dt self) as (C & Pd & _).
  repeat split; congruence.
Qed.

Lemma X10_collision_after_cursor_witness :
  snd (before_run (of_Z 3) (of_Z 1)
         (constructed 1 [0; 0; 0]
            [of_Z 1; Q2Qc (41 # 10); Q2Qc (42 # 10)] Inf))
  = Raise (ValueError multiple_spikes_per_step)
  /\ _lastindex
       (fst (before_run (of_Z 3) (of_Z 1)
               (constructed 1 [0; 0; 0]
                  [of_Z 1; Q2Qc (41 # 10); Q2Qc (42 # 10)] Inf)))
     = 1
  /\ log (fst (before_run (of_Z 3) (of_Z 1)
                 (constructed 1 [0; 0; 0]
                    [of_Z 1; Q2Qc (41 # 10); Q2Qc (42 # 10)] Inf)))
     = [ignored_spikes (of_Z 3)].
Proof.
  destruct (X10_collision_after_cursor (of_Z 3) (of_Z 1)
              (constructed 1 [0; 0; 0]
                 [of_Z 1; Q2Qc (41 # 10); Q2Qc (42 # 10)] Inf)
              eq_refl eq_refl eq_refl) as (H1 & H2 & H3 & _).
  split; [exact H1|]. split; [exact H2 | exact H3].
Defined.

Lemma in_the_past_nonempty (times : list Qc) (current_t dt : Qc) :
  in_the_past times current_t dt <> []
  <-> exists x, In x times /\ timestep x dt < timestep current_t dt.
Proof.
  unfold in_the_past, nonzero.
  set (bins := map (fun t => timestep t dt) times).
  set (cur := timestep current_t dt).
  assert (L : length bins = length times)
    by (unfold bins; now rewrite length_map).
  split.
  - intro NE.
    destruct (nonzero_from 0 (map (fun s => s <? cur) bins)) as [|j l] eqn:E;
      [congruence|].
    assert (I : In j (nonzero_from 0 (map (fun s => s <? cur) bins)))
      by (rewrite E; now left).
    apply nonzero_from_In in I as [_ I]. rewrite Nat.sub_0_r in I.
    apply nth_past in I as [I1 I2].
    exists (nth j times (of_Z 0)). split; [apply nth_In; lia|].
    unfold bins in I2. rewrite (nth_map_lt _ _ (of_Z 0)) in I2 by lia.
    exact I2.
  - intros (x & Hx & Hlt) E.
    destruct (In_nth _ _ (of_Z 0) Hx) as (k & Hk & <-).
    assert (I : In k (nonzero_from 0 (map (fun s => s <? cur) bins))).
    { apply nonzero_from_In. split; [lia|]. rewrite Nat.sub_0_r.
      apply nth_past. split; [lia|].
      unfold bins. now rewrite (nth_map_lt _ _ (of_Z 0)) by lia. }
    now rewrite E in I.
Qed.

(** X11.  A run start logs the warning about ignored spikes exactly when
    the schedule is dirty, the period checks pass and some stored spike
    lies in a time step before the one of the current time; it then logs
    it once, with the current time.  In every other case the log is left as
    it is. *)
Theorem X11_warning current_t dt self :
  (_spikes_changed self = true ->
   check_period dt self = (self, Return tt) ->
   (exists x, In x (_spike_time self)
              /\ timestep x dt < timestep current_t dt) ->
   log (fst (before_run current_t dt self))
   = log self ++ [ignored_spikes current_t])
  /\ (~ (_spikes_changed self = true
         /\ check_period dt self = (self, Return tt)
         /\ exists x, In x (_spike_time self)
                      /\ timestep x dt < timestep current_t dt) ->
      log (fst (before_run current_t dt self)) = log self).
Proof.
  split.
  - intros D P E.
    destruct (before_run_lastindex current_t dt self P) as (_ & -> & _).
    destruct (update_lastindex_dirty current_t dt self D) as [_ ->].
    apply in_the_past_nonempty, len_nonzero in E. now rewrite E.
  - intro NA. destruct (check_period_cases dt self) as [P|(e & P & _)].
    2:{ now rewrite (before_run_period_raise _ _ _ _ P). }
    destruct (before_run_lastindex current_t dt self P) as (_ & -> & _).
    destruct (_spikes_changed self) eqn:D.
    + destruct (update_lastindex_dirty current_t dt self D) as [_ ->].
      destruct (len (in_the_past (_spike_time self) current_t dt) =? 0)
        eqn:E; [reflexivity|].
      exfalso. apply NA. repeat split; try assumption.
      now apply in_the_past_nonempty, len_nonzero.
    + rewrite update_lastindex_eq, D. reflexivity.
Qed.

Lemma X11_warning_witness :
  log (fst (before_run (Q2Qc (10 # 1000)) (Q2Qc (1 # 1000))
              (constructed 1 [0] [Q2Qc (2 # 1000)] Inf)))
  = [ignored_spikes (Q2Qc (10 # 1000))]
  /\ log (fst (before_run (of_Z 0) (Q2Qc (1 # 1000))
                 (constructed 1 [0] [Q2Qc (2 # 1000)] Inf)))
     = [].
Proof.
  split.
  - apply (proj1 (X11_warning (Q2Qc (10 # 1000)) (Q2Qc (1 # 1000))
                    (constructed 1 [0] [Q2Qc (2 # 1000)] Inf)));
      [reflexivity | reflexivity |].
    exists (Q2Qc (2 # 1000)). split; [now left | reflexivity].
  - apply (proj2 (X11_warning (of_Z 0) (Q2Qc (1 # 1000))
                    (constructed 1 [0] [Q2Qc (2 # 1000)] Inf))).
    intros (_ & _ & x & [<-|[]] & H). now vm_compute in H.
Defined.

(** ** The check of the time bins *)

(** X12.  [before_run] raises the error about several spikes in a time
    step only when the period checks have passed and two neighbouring
    stored spikes have the same neuron index and the same time bin. *)
Theorem X12_collision_sound current_t dt self :
  snd (before_run current_t dt self)
  = Raise (ValueError multiple_spikes_per_step) ->
  check_period dt self = (self, Return tt)
  /\ exists k,
       (S k < length (_spike_time self))%nat
       /\ (S k < length (_neuron_index self))%nat
       /\ nth k (_neuron_index self) 0 = nth (S k) (_neuron_index self) 0
       /\ nth k (timebins (_spike_time self) dt) 0
          = nth (S k) (timebins (_spike_time self) dt) 0.
Proof.
  intro H. destruct (check_period_cases dt self) as [P|(e & P & K)].
  - split; [exact P|].
    rewrite (before_run_period_ok _ _ _ P), check_bins_eq in H.
    destruct (update_lastindex_cache current_t dt self) as (_ & _ & T & I).
    rewrite T, I in H.
    destruct (bins_check_due _ dt); [|discriminate].
    destruct (spikes_collide (timebins (_spike_time self) dt)
                (_neuron_index self)) eqn:C; [|discriminate].
    apply spikes_collide_iff in C as (k & K1 & K2 & K3 & K4).
    exists k. unfold timebins in K1. rewrite length_map in K1.
    now repeat split.
  - rewrite (before_run_period_raise _ _ _ _ P) in H. cbn in H.
    injection H as ->. discriminate.
Qed.

Lemma X12_collision_sound_witness :
  check_period (Q2Qc (1 # 1000))
    (constructed 1 [0; 0] [Q2Qc (5 # 10000); Q2Qc (7 # 10000)] Inf)
  = (constructed 1 [0; 0] [Q2Qc (5 # 10000); Q2Qc (7 # 10000)] Inf,
     Return tt)
  /\ exists k,
       (S k < 2)%nat /\ (S k < 2)%nat
       /\ nth k [0; 0] 0 = nth (S k) [0; 0] 0
       /\ nth k (timebins [Q2Qc (5 # 10000); Q2Qc (7 # 10000)]
                   (Q2Qc (1 # 1000))) 0
          = nth (S k) (timebins [Q2Qc (5 # 10000); Q2Qc (7 # 10000)]
                         (Q2Qc (1 # 1000))) 0.
Proof.
  apply (X12_collision_sound (of_Z 0) (Q2Qc (1 # 1000))
           (constructed 1 [0; 0] [Q2Qc (5 # 10000); Q2Qc (7 # 10000)] Inf)).
  reflexivity.
Defined.

Lemma event_eq_dec (a b : Z * Qc) : {a = b} + {a <> b}.
Proof.
  destruct a as [i t], b as [j u].
  destruct (Z.eq_dec i j) as [->|Ni]; [|right; congruence].
  destruct (Qc_eq_dec t u) as [->|Nt]; [now left | right; congruence].
Qed.

(** In an ascending list of events, an event that occurs twice occurs at
    two neighbouring positions. *)
Lemma sorted_dup_adjacent (l : list (Z * Qc)) (d : Z * Qc) :
  StronglySorted event_le l -> ~ NoDup l ->
  exists k, (S k < length l)%nat /\ nth k l d = nth (S k) l d.
Proof.
  induction 1 as [|a l Srt IH F]; intro ND.
  - exfalso. apply ND. constructor.
  - destruct (in_dec event_eq_dec a l) as [I|NI].
    + destruct l as [|b l]; [destruct I|].
      exists 0%nat. cbn [length nth]. split; [lia|].
      inversion Srt as [|? ? S' F']; subst.
      rewrite Forall_forall in F, F'.
      apply event_le_antisym; [apply F; now left|].
      destruct I as [<-|I]; [apply event_le_refl | now apply F'].
    + destruct IH as (k & K1 & K2).
      { intro ND'. apply ND. now constructor. }
      exists (S k). cbn [length nth]. split; [lia | exact K2].
Qed.

Lemma sorted_duplicates_collide (ids : list Z) (times : list Qc) (dt : Qc) :
  StronglySorted event_le (combine ids times) ->
  length ids = length times ->
  ~ NoDup (combine ids times) ->
  spikes_collide (timebins times dt) ids = true.
Proof.
  intros Srt L ND.
  destruct (sorted_dup_adjacent _ (0, of_Z 0) Srt ND) as (k & K1 & K2).
  rewrite length_combine, <- L, Nat.min_id in K1.
  rewrite !combine_nth in K2 by exact L. injection K2 as Ei Et.
  apply spikes_collide_iff. exists k. unfold timebins.
  rewrite length_map. repeat split; try lia.
  rewrite !(nth_map_lt _ _ (of_Z 0)) by lia. now rewrite Et.
Qed.

(** X13.  An event given twice is always found: when the construction or
    [set_spikes] accepts, with [sorted = False], arrays in which some
    (index, time) pair occurs twice, the next run start whose period checks
    pass raises the error about several spikes in a time step, whatever
    [dt] and the current time are. *)
Theorem X13_duplicates_detected :
  (forall N indices times period g current_t dt,
      SpikeGeneratorGroup N indices times period false = Return g ->
      ~ NoDup (combine indices times) ->
      check_period dt g = (g, Return tt) ->
      snd (before_run current_t dt g)
      = Raise (ValueError multiple_spikes_per_step))
  /\ (forall indices times period self current_t dt,
         snd (set_spikes indices times period false self) = Return tt ->
         ~ NoDup (combine indices times) ->
         check_period dt (fst (set_spikes indices times period false self))
         = (fst (set_spikes indices times period false self), Return tt) ->
         snd (before_run current_t dt
                (fst (set_spikes indices times period false self)))
         = Raise (ValueError multiple_spikes_per_step)).
Proof.
  assert (Core : forall indices times g current_t dt,
             length indices = length times ->
             _neuron_index g = fst (canonical indices times false) ->
             _spike_time g = snd (canonical indices times false) ->
             _spikes_changed g = true ->
             ~ NoDup (combine indices times) ->
             check_period dt g = (g, Return tt) ->
             snd (before_run current_t dt g)
             = Raise (ValueError multiple_spikes_per_step)).
  { intros indices times g current_t dt L Ei Et D ND P.
    destruct (canonical_sorted_input indices times L)
      as (L1 & L2 & Pm & Srt & _).
    rewrite (before_run_bins_due _ _ _ P (or_introl D)), Ei, Et.
    rewrite sorted_duplicates_collide; [reflexivity | exact Srt | congruence |].
    intro ND'. apply ND. eapply Permutation_NoDup; eauto. }
  split.
  - intros N indices times period g current_t dt H ND P.
    destruct (N_valid N) eqn:VN.
    2:{ rewrite (SpikeGeneratorGroup_bad_N _ _ _ _ false VN) in H.
        discriminate. }
    destruct (args_valid indices times period (Qtruncate N)) eqn:V.
    2:{ destruct (SpikeGeneratorGroup_bad_args _ _ _ _ false VN V)
          as (e & E & _). congruence. }
    rewrite (SpikeGeneratorGroup_valid _ _ _ _ false VN V) in H.
    inversion H; subst.
    apply (Core indices times); try reflexivity; try assumption.
    eapply args_valid_length; eauto.
  - intros indices times period self current_t dt H ND P.
    destruct (args_valid indices times period (N self)) eqn:V.
    2:{ destruct (set_spikes_invalid _ _ _ false _ V) as (e & E & _).
        rewrite E in H. discriminate. }
    rewrite (set_spikes_valid _ _ _ false _ V) in *. cbn [fst] in *.
    apply (Core indices times); try reflexivity; try assumption.
    eapply args_valid_length; eauto.
Qed.

Lemma X13_duplicates_detected_witness :
  snd (before_run (of_Z 0) (of_Z 1)
         (constructed 2 [0; 1; 1] [of_Z 3; of_Z 5; of_Z 5] Inf))
  = Raise (ValueError multiple_spikes_per_step).
Proof.
  apply (proj1 X13_duplicates_detected (of_Z 2) [1; 0; 1]
           [of_Z 5; of_Z 3; of_Z 5] Inf).
  - reflexivity.
  - intro ND. inversion ND as [|? ? NI _]; subst.
    apply NI. right. now left.
  - reflexivity.
Defined.

Lemma timebins_in_range (times : list Qc) (dt : Qc) :
  (0 < dt)%Qc ->
  Forall (bin_in_range dt) times ->
  timebins times dt = map (fun t => timestep t dt) times.
Proof.
  intros Hdt F. unfold timebins. apply map_ext_in. intros t Ht.
  rewrite Forall_forall in F. destruct (F t Ht) as [H0 Hlt].
  apply as_int32_timestep; [exact H0 | exact Hdt |].
  apply below_int32. unfold Qclt in Hlt. now rewrite this_of_Z in Hlt.
Qed.

(** X14.  Where the scan of neighbours is complete: on times in ascending
    order whose bins fit [int32], with [dt > 0], two spikes at positions
    [i < j] in the same time bin are found whenever all spikes from [i] to
    [j] belong to one neuron (as in a group with a single neuron). *)
Theorem X14_collision_complete_on_runs (times : list Qc) (ids : list Z)
    (dt : Qc) (i j : nat) :
  (0 < dt)%Qc ->
  StronglySorted Qcle times ->
  Forall (bin_in_range dt) times ->
  length ids = length times ->
  (i < j < length times)%nat ->
  nth i (timebins times dt) 0 = nth j (timebins times dt) 0 ->
  (forall k, (i <= k <= j)%nat -> nth k ids 0 = nth i ids 0) ->
  spikes_collide (timebins times dt) ids = true.
Proof.
  intros Hdt Srt F L Hij Hbin Hrun.
  rewrite (timebins_in_range times dt Hdt F) in *.
  apply spikes_collide_iff. exists i. rewrite length_map.
  repeat split; try lia.
  - rewrite !(nth_map_lt _ _ (of_Z 0)) in * by lia.
    apply Z.le_antisymm.
    + apply timestep_mono; [exact Hdt|].
      apply (StronglySorted_nth Qcle times (of_Z 0) Srt i (S i)). lia.
    + rewrite Hbin. destruct (Nat.eq_dec (S i) j) as [->|Nj]; [lia|].
      apply timestep_mono; [exact Hdt|].
      apply (StronglySorted_nth Qcle times (of_Z 0) Srt (S i) j). lia.
  - symmetry. apply Hrun. lia.
Qed.

Lemma X14_collision_complete_on_runs_witness :
  spikes_collide
    (timebins [Q2Qc (1 # 10); Q2Qc (2 # 10); Q2Qc (3 # 10)] (of_Z 1))
    [0; 0; 0]
  = true.
Proof.
  apply (X14_collision_complete_on_runs
           [Q2Qc (1 # 10); Q2Qc (2 # 10); Q2Qc (3 # 10)] [0; 0; 0]
           (of_Z 1) 0 2).
  - reflexivity.
  - repeat constructor; now vm_compute.
  - repeat (apply Forall_cons; [split; now vm_compute|]). apply Forall_nil.
  - reflexivity.
  - cbn; lia.
  - reflexivity.
  - intros [|[|[|k]]] Hk; try reflexivity. lia.
Defined.

(** ** The period checks: what passes *)

Lemma of_Z_mult (a b : Z) : (of_Z a * of_Z b)%Qc = of_Z (a * b).
Proof.
  apply Qc_is_canon. rewrite this_mult, !this_of_Z.
  now rewrite inject_Z_mult.
Qed.

Lemma timestep_multiple_eq (k : Z) (dt : Qc) :
  (0 < dt)%Qc -> timestep (of_Z k * dt)%Qc dt = k.
Proof. intro H. now apply timestep_multiple. Qed.

(** X16.  A period that is an integer multiple [m * dt] of the timestep
    ([m >= 1], [dt > 0]) always passes the period checks. *)
Theorem X16_multiple_period_passes (m : Z) (dt : Qc) (self : group) :
  1 <= m ->
  (0 < dt)%Qc ->
  period self = Fin (of_Z m * dt)%Qc ->
  check_period dt self = (self, Return tt).
Proof.
  intros Hm Hdt Hp. rewrite (check_period_Fin _ dt self Hp).
  assert (Hle : (dt <= of_Z m * dt)%Qc).
  { rewrite <- (Qcmult_1_l dt) at 1.
    apply Qcmult_le_compat_r; [|now apply Qclt_le_weak].
    unfold Qcle. rewrite this_of_Z. change (this 1%Qc) with (inject_Z 1).
    rewrite <- Zle_Qle. lia. }
  replace (Qcltb (of_Z m * dt) dt) with false
    by (symmetry; now apply Qcltb_ge).
  replace (multiples_ok (of_Z m * dt) dt) with true;
    [now rewrite andb_false_r|].
  symmetry. apply multiples_ok_iff. intros k _.
  rewrite Qcmult_assoc, of_Z_mult, !timestep_multiple_eq by exact Hdt.
  unfold np_mod. destruct (m =? 0) eqn:E; [reflexivity|].
  apply Z.mod_mul. lia.
Qed.

Lemma X16_multiple_period_passes_witness :
  check_period (Q2Qc (1 # 10))
    (constructed 1 [] [] (Fin (of_Z 50 * Q2Qc (1 # 10))%Qc))
  = (constructed 1 [] [] (Fin (of_Z 50 * Q2Qc (1 # 10))%Qc), Return tt).
Proof.
  apply (X16_multiple_period_passes 50 (Q2Qc (1 # 10))
           (constructed 1 [] [] (Fin (of_Z 50 * Q2Qc (1 # 10))%Qc))).
  - lia.
  - reflexivity.
  - reflexivity.
Defined.

(** X17.  What the multiple check cannot see: with [dt > 0], a period of
    1000 s or more, and a period from [dt] up to (not including)
    [1.999 * dt], pass the period checks whatever their ratio to [dt] is;
    and an infinite period always passes. *)
Theorem X17_period_blind_spots (p dt : Qc) (self : group) :
  (period self = Inf -> check_period dt self = (self, Return tt))
  /\ (period self = Fin p -> (dt <= p)%Qc -> (thousand <= p)%Qc ->
      check_period dt self = (self, Return tt))
  /\ (period self = Fin p -> (0 < dt)%Qc -> (dt <= p)%Qc ->
      (p / dt + milli < of_Z 2)%Qc ->
      check_period dt self = (self, Return tt)).
Proof.
  split; [|split].
  - intro H. unfold check_period. run_body. now rewrite H.
  - intros H Hle Hth. rewrite (check_period_Fin p dt self H).
    replace (Qcltb p dt) with false by (symmetry; now apply Qcltb_ge).
    replace (Qcltb p thousand) with false
      by (symmetry; now apply Qcltb_ge).
    reflexivity.
  - intros H Hdt Hle Hlt. rewrite (check_period_Fin p dt self H).
    replace (Qcltb p dt) with false by (symmetry; now apply Qcltb_ge).
    replace (multiples_ok p dt) with true; [now rewrite andb_false_r|].
    symmetry. apply multiples_ok_iff. intros k _.
    assert (E : timestep p dt = 1).
    { change (0 < this dt)%Q in Hdt. unfold timestep.
      rewrite (shifted_eq p dt Hdt). apply Qfloor_unique.
      - apply Qle_trans with (this p / this dt)%Q.
        + apply Qle_shift_div_l; [exact Hdt|]. now rewrite Qmult_1_l.
        + rewrite <- (Qplus_0_r (this p / this dt)) at 1.
          apply Qplus_le_r. discriminate.
      - unfold Qclt in Hlt.
        rewrite this_plus, this_div, this_of_Z in Hlt. exact Hlt. }
    rewrite E. unfold np_mod. cbn. apply Z.mod_1_r.
Qed.

Lemma X17_period_blind_spots_witness :
  check_period (of_Z 1) (constructed 1 [] [] (Fin (Q2Qc (20005 # 10))))
  = (constructed 1 [] [] (Fin (Q2Qc (20005 # 10))), Return tt)
  /\ check_period (of_Z 1) (constructed 1 [] [] (Fin (Q2Qc (15 # 10))))
     = (constructed 1 [] [] (Fin (Q2Qc (15 # 10))), Return tt).
Proof.
  split.
  - apply (proj1 (proj2 (X17_period_blind_spots (Q2Qc (20005 # 10)) (of_Z 1)
                           (constructed 1 [] [] (Fin (Q2Qc (20005 # 10)))))));
      [reflexivity | now vm_compute | now vm_compute].
  - apply (proj2 (proj2 (X17_period_blind_spots (Q2Qc (15 # 10)) (of_Z 1)
                           (constructed 1 [] [] (Fin (Q2Qc (15 # 10)))))));
      [reflexivity | reflexivity | now vm_compute | reflexivity].
Defined.

(** ** The cursor and the start time *)

Lemma in_the_past_empty (times : list Qc) (current_t dt : Qc) :
  ~ (exists x, In x times /\ timestep x dt < timestep current_t dt) ->
  in_the_past times current_t dt = [].
Proof.
  intro H. destruct (in_the_past times current_t dt) eqn:E; [reflexivity|].
  exfalso. apply H. apply in_the_past_nonempty. rewrite E. discriminate.
Qed.

(** X18.  No spike at or after the start time is skipped: when a dirty
    schedule starts a run at a time that no stored spike precedes (with
    [dt > 0] and passing period checks), the cursor is set to 0 and no
    warning is logged.  In particular a run that starts at time 0 skips
    nothing. *)
Theorem X18_nothing_skipped_from_start current_t dt self :
  (0 < dt)%Qc ->
  _spikes_changed self = true ->
  check_period dt self = (self, Return tt) ->
  Forall (fun x => (current_t <= x)%Qc) (_spike_time self) ->
  _lastindex (fst (before_run current_t dt self)) = 0
  /\ log (fst (before_run current_t dt self)) = log self.
Proof.
  intros Hdt D P F.
  assert (E : in_the_past (_spike_time self) current_t dt = []).
  { apply in_the_past_empty. intros (x & Hx & Hlt).
    rewrite Forall_forall in F.
    pose proof (timestep_mono current_t x dt Hdt (F x Hx)). lia. }
  destruct (before_run_lastindex current_t dt self P) as (-> & -> & _).
  destruct (update_lastindex_dirty current_t dt self D) as [-> ->].
  unfold cursor_at. now rewrite E.
Qed.

Lemma X18_nothing_skipped_from_start_witness :
  _lastindex (fst (before_run (of_Z 0) (Q2Qc (1 # 10))
                     (constructed 1 [0; 0] [of_Z 0; of_Z 3] Inf))) = 0
  /\ log (fst (before_run (of_Z 0) (Q2Qc (1 # 10))
                 (constructed 1 [0; 0] [of_Z 0; of_Z 3] Inf))) = [].
Proof.
  apply (X18_nothing_skipped_from_start (of_Z 0) (Q2Qc (1 # 10))
           (constructed 1 [0; 0] [of_Z 0; of_Z 3] Inf)).
  - reflexivity.
  - reflexivity.
  - reflexivity.
  - repeat (apply Forall_cons; [now vm_compute|]). apply Forall_nil.
Defined.

Lemma cursor_at_monotone (times : list Qc) (t1 t2 dt : Qc) :
  (0 < dt)%Qc -> (t1 <= t2)%Qc ->
  cursor_at times t1 dt <= cursor_at times t2 dt.
Proof.
  intros Hdt Hle.
  pose proof (timestep_mono t1 t2 dt Hdt Hle) as M.
  pose proof (cursor_at_spec times t1 dt) as C1.
  pose proof (cursor_at_spec times t2 dt) as C2.
  cbv zeta in C1, C2.
  destruct C1 as [[-> _]|(j1 & -> & J1 & B1 & _)].
  - destruct C2 as [[-> _]|(j2 & -> & _)]; lia.
  - destruct C2 as [[_ A2]|(j2 & -> & J2 & B2 & A2)].
    + specialize (A2 j1 J1). lia.
    + destruct (Nat.lt_ge_cases j2 j1) as [L|G]; [|lia].
      specialize (A2 j1 (conj L J1)). lia.
Qed.

(** X19.  A later start never moves the cursor back: for a dirty schedule,
    [dt > 0] and passing period checks, the cursor that [before_run] sets
    for a start time [t2] is at least the one it sets for any earlier start
    time [t1]. *)
Theorem X19_cursor_monotone_in_start t1 t2 dt self :
  (0 < dt)%Qc ->
  (t1 <= t2)%Qc ->
  _spikes_changed self = true ->
  check_period dt self = (self, Return tt) ->
  _lastindex (fst (before_run t1 dt self))
  <= _lastindex (fst (before_run t2 dt self)).
Proof.
  intros Hdt Hle D P.
  rewrite !before_run_cursor by assumption.
  now apply cursor_at_monotone.
Qed.

Lemma X19_cursor_monotone_in_start_witness :
  _lastindex (fst (before_run (of_Z 2) (of_Z 1)
                     (constructed 1 [0; 0; 0]
                        [of_Z 1; of_Z 3; of_Z 5] Inf)))
  <= _lastindex (fst (before_run (of_Z 4) (of_Z 1)
                        (constructed 1 [0; 0; 0]
                           [of_Z 1; of_Z 3; of_Z 5] Inf))).
Proof.
  apply (X19_cursor_monotone_in_start (of_Z 2) (of_Z 4) (of_Z 1)
           (constructed 1 [0; 0; 0] [of_Z 1; of_Z 3; of_Z 5] Inf)).
  - reflexivity.
  - now vm_compute.
  - reflexivity.
  - reflexivity.
Defined.

Lemma timestep_next (x dt : Qc) :
  (0 < dt)%Qc -> timestep (x + dt)%Qc dt = timestep x dt + 1.
Proof.
  intro Hdt. change (0 < this dt)%Q in Hdt. unfold timestep.
  rewrite (shifted_eq (x + dt)%Qc dt Hdt), (shifted_eq x dt Hdt).
  rewrite this_plus.
  assert (N0 : ~ (this dt == 0)%Q)
    by (intro E; rewrite E in Hdt; now apply Qlt_irrefl in Hdt).
  set (y := (this x / this dt + (1 # 1000))%Q).
  assert (E : ((this x + this dt) / this dt + (1 # 1000) == y + inject_Z 1)%Q)
    by (unfold y; change (inject_Z 1) with 1%Q; now field).
  rewrite E. apply Qfloor_unique.
  - rewrite inject_Z_plus. apply Qplus_le_l. apply Qfloor_le.
  - rewrite (inject_Z_plus (Qfloor y + 1) 1). apply Qplus_lt_l.
    apply Qlt_floor.
Qed.

(** X20.  A run that starts at least one [dt] after every stored spike
    skips the whole schedule: for a dirty, non-empty schedule with [dt > 0]
    and passing period checks, the cursor is set to the number of stored
    spikes and the warning is logged. *)
Theorem X20_all_skipped current_t dt self :
  (0 < dt)%Qc ->
  _spikes_changed self = true ->
  check_period dt self = (self, Return tt) ->
  _spike_time self <> [] ->
  Forall (fun x => (x + dt <= current_t)%Qc) (_spike_time self) ->
  _lastindex (fst (before_run current_t dt self)) = len (_spike_time self)
  /\ log (fst (before_run current_t dt self))
     = log self ++ [ignored_spikes current_t].
Proof.
  intros Hdt D P NE F.
  assert (Past : forall x, In x (_spike_time self) ->
                           timestep x dt < timestep current_t dt).
  { intros x Hx. rewrite Forall_forall in F.
    pose proof (timestep_mono _ _ dt Hdt (F x Hx)) as M.
    rewrite (timestep_next x dt Hdt) in M. lia. }
  split.
  - rewrite before_run_cursor by assumption.
    pose proof (cursor_at_spec (_spike_time self) current_t dt) as C.
    cbv zeta in C. rewrite length_map in C. unfold len.
    assert (Bin : forall k, (k < length (_spike_time self))%nat ->
                   nth k (map (fun t => timestep t dt) (_spike_time self)) 0
                   < timestep current_t dt).
    { intros k Hk. rewrite (nth_map_lt _ _ (of_Z 0)) by exact Hk.
      apply Past. now apply nth_In. }
    assert (Pos : (0 < length (_spike_time self))%nat)
      by (destruct (_spike_time self); [congruence | cbn; lia]).
    destruct C as [[_ A]|(j & -> & J & _ & A)].
    + specialize (A 0%nat Pos). specialize (Bin 0%nat Pos). lia.
    + destruct (Nat.eq_dec (S j) (length (_spike_time self))) as [E|N];
        [lia|].
      specialize (A (S j) ltac:(lia)). specialize (Bin (S j) ltac:(lia)).
      lia.
  - destruct (before_run_lastindex current_t dt self P) as (_ & -> & _).
    destruct (update_lastindex_dirty current_t dt self D) as [_ ->].
    assert (E : in_the_past (_spike_time self) current_t dt <> []).
    { apply in_the_past_nonempty.
      destruct (_spike_time self) as [|x l]; [congruence|].
      exists x. split; [now left | apply Past; now left]. }
    apply len_nonzero in E. now rewrite E.
Qed.

Lemma X20_all_skipped_witness :
  _lastindex (fst (before_run (of_Z 10) (of_Z 1)
                     (constructed 1 [0; 0] [of_Z 2; of_Z 5] Inf))) = 2
  /\ log (fst (before_run (of_Z 10) (of_Z 1)
                 (constructed 1 [0; 0] [of_Z 2; of_Z 5] Inf)))
     = [ignored_spikes (of_Z 10)].
Proof.
  apply (X20_all_skipped (of_Z 10) (of_Z 1)
           (constructed 1 [0; 0] [of_Z 2; of_Z 5] Inf)).
  - reflexivity.
  - reflexivity.
  - reflexivity.
  - discriminate.
  - repeat (apply Forall_cons; [now vm_compute|]). apply Forall_nil.
Defined.

(** ** The [spikes] property *)

Lemma py_last_app (cells : list Z) (k : Z) : py_last (cells ++ [k]) = k.
Proof. unfold py_last. apply last_last. Qed.

(** X21.  [spikes] returns the indices written before the counter and never
    the counter cell: for a [_spikespace] made of cells followed by a
    counter [k] with [0 <= k] and [k] at most the number of cells, it
    returns exactly the first [k] cells; and on the array as [__init__]
    creates it (all zero) it returns the empty array. *)
Theorem X21_spikes (cells : list Z) (k N : Z) :
  (0 <= k <= len cells ->
   spikes (cells ++ [k]) = firstn (Z.to_nat k) cells
   /\ len (spikes (cells ++ [k])) = k)
  /\ (0 <= N -> spikes (initial__spikespace N) = []).
Proof.
  split.
  - intros [K0 K1]. unfold spikes, py_slice_to. rewrite py_last_app.
    replace (k <? 0) with false by (symmetry; apply Z.ltb_ge; lia).
    unfold len in K1.
    assert (E : firstn (Z.to_nat k) (cells ++ [k])
                = firstn (Z.to_nat k) cells).
    { rewrite firstn_app.
      replace (Z.to_nat k - length cells)%nat with 0%nat by lia.
      cbn [firstn]. apply app_nil_r. }
    rewrite E. split; [reflexivity|].
    unfold len. rewrite length_firstn. lia.
  - intro HN. unfold spikes, py_slice_to, initial__spikespace.
    replace (Z.to_nat (N + 1)) with (S (Z.to_nat N)) by lia.
    assert (L : py_last (repeat 0 (S (Z.to_nat N))) = 0).
    { unfold py_last. generalize (Z.to_nat N). intro n.
      induction n as [|n IH]; [reflexivity|].
      change (repeat 0 (S (S n))) with (0 :: repeat 0 (S n)).
      change (repeat 0 (S n)) with (0 :: repeat 0 n) at 1.
      cbn [last]. exact IH. }
    rewrite L. reflexivity.
Qed.

Lemma X21_spikes_witness :
  spikes [4; 1; 0; 0; 2] = [4; 1] /\ spikes (initial__spikespace 3) = [].
Proof.
  split.
  - apply (proj1 (proj1 (X21_spikes [4; 1; 0; 0] 2 0)
                    ltac:(cbn; lia))).
  - apply (proj2 (X21_spikes [] 0 3)). lia.
Defined.
